(** * Patient management canister: a shallow embedding of [src/index.ts]

    The canister keeps every patient in one [StableBTreeMap<string, Patient>]
    and exposes twelve operations on it.  This development embeds the data
    model and the operations as Rocq functions over an explicit canister
    state, and proves the storage contract they implement.

    Modelling conventions.
    - A JavaScript string is a [string]: the bytes of its UTF-8 encoding.
    - [number] (Candid [float64]) is an IEEE 754 value, [spec_float].
    - [nat64] is [N]; [Opt<T>] is [option T]; [Vec<T>] is [list T].
    - [patientStorage] is a [gmap string Patient.t].  The key and value size
      bounds given to the [StableBTreeMap] constructor are not modelled: the
      map calls always return, so no [catch] block of the source is entered.
    - The two calls that leave the module, [uuidv4()] and [ic.time()], are
      inputs of the operation that makes them. *)

From Stdlib Require Import ZArith NArith Ascii String List Floats.SpecFloat.
From stdpp Require Import base option list strings gmap fin_maps.

Local Open Scope string_scope.

(** * JavaScript values *)

Definition number : Type := spec_float.
Definition nat64 : Type := N.

(** [!s] for a string [s]: only the empty string is falsy. *)
Definition falsy_string (s : string) : bool :=
  match s with
  | EmptyString => true
  | String _ _ => false
  end.

(** [!x] for a number [x]: [+0], [-0] and [NaN] are falsy. *)
Definition falsy_number (x : number) : bool :=
  match x with
  | S754_zero _ => true
  | S754_nan => true
  | S754_infinity _ => false
  | S754_finite _ _ _ => false
  end.

(** [!o] for an [Opt] value [o].  Azle's [Opt<T>] is a variant, and a variant
    is an object with one own property ([{ Some: v }] or [{ None: null }]):
    [match] in [candid_types/variant.ts] dispatches on that property.  Every
    object is truthy, whichever property it holds. *)
Definition falsy_Opt {A : Type} (o : option A) : bool :=
  match o with
  | Some _ => false
  | None => false
  end.

(** ** Text

    Candid [text] is UTF-8, and a JavaScript string made from it is
    well-formed.  A string is modelled by its UTF-8 bytes: emptiness,
    [===], concatenation, [includes] and the test of an ASCII pattern are
    then what they are on the string itself.  [toLowerCase] works on code
    points, so the model decodes, maps and encodes again. *)

(** A Unicode scalar value: a code point that is not a surrogate. *)
Definition is_scalar (c : N) : bool :=
  ((c <? 55296) || (57344 <=? c) && (c <? 1114112))%N.

Definition is_continuation (n : N) : bool := ((128 <=? n) && (n <=? 191))%N.

(** The second byte of a three-byte sequence: no overlong form, no
    surrogate. *)
Definition second_of_three (n0 n1 : N) : bool :=
  (if n0 =? 224 then (160 <=? n1) && (n1 <=? 191)
   else if n0 =? 237 then (128 <=? n1) && (n1 <=? 159)
   else is_continuation n1)%N.

(** The second byte of a four-byte sequence: no overlong form, nothing
    above U+10FFFF. *)
Definition second_of_four (n0 n1 : N) : bool :=
  (if n0 =? 240 then (144 <=? n1) && (n1 <=? 191)
   else if n0 =? 244 then (128 <=? n1) && (n1 <=? 143)
   else is_continuation n1)%N.

(** The code points of a well-formed UTF-8 string; [None] for any other
    sequence of bytes. *)
Fixpoint decode (s : string) : option (list N) :=
  match s with
  | EmptyString => Some []
  | String b0 s1 =>
      let n0 := N_of_ascii b0 in
      if (n0 <? 128)%N then option_map (cons n0) (decode s1)
      else
        match s1 with
        | EmptyString => None
        | String b1 s2 =>
            let n1 := N_of_ascii b1 in
            if ((194 <=? n0) && (n0 <=? 223))%N then
              if is_continuation n1
              then option_map (cons ((n0 - 192) * 64 + (n1 - 128))%N)
                     (decode s2)
              else None
            else
              match s2 with
              | EmptyString => None
              | String b2 s3 =>
                  let n2 := N_of_ascii b2 in
                  if ((224 <=? n0) && (n0 <=? 239))%N then
                    if second_of_three n0 n1 && is_continuation n2
                    then option_map
                           (cons ((n0 - 224) * 4096 + (n1 - 128) * 64
                                  + (n2 - 128))%N)
                           (decode s3)
                    else None
                  else
                    match s3 with
                    | EmptyString => None
                    | String b3 s4 =>
                        let n3 := N_of_ascii b3 in
                        if ((240 <=? n0) && (n0 <=? 244))%N
                           && second_of_four n0 n1
                           && is_continuation n2 && is_continuation n3
                        then option_map
                               (cons ((n0 - 240) * 262144
                                      + (n1 - 128) * 4096
                                      + (n2 - 128) * 64 + (n3 - 128))%N)
                               (decode s4)
                        else None
                    end
              end
        end
  end.

(** The UTF-8 bytes of a code point, put in front of [rest]. *)
Definition encode_onto (c : N) (rest : string) : string :=
  if (c <? 128)%N then String (ascii_of_N c) rest
  else if (c <? 2048)%N then
    String (ascii_of_N (192 + c / 64))
      (String (ascii_of_N (128 + c mod 64)) rest)
  else if (c <? 65536)%N then
    String (ascii_of_N (224 + c / 4096))
      (String (ascii_of_N (128 + (c / 64) mod 64))
         (String (ascii_of_N (128 + c mod 64)) rest))
  else
    String (ascii_of_N (240 + c / 262144))
      (String (ascii_of_N (128 + (c / 4096) mod 64))
         (String (ascii_of_N (128 + (c / 64) mod 64))
            (String (ascii_of_N (128 + c mod 64)) rest))).

Definition encode (l : list N) : string := foldr encode_onto EmptyString l.

(** ** [String.prototype.toLowerCase]

    The default case conversion of the Unicode Standard, version 14.0: the
    lower-case mapping of each code point, and the one rule that looks at
    the context, for the capital sigma. *)

(** The code points with a lower-case mapping of one code point, in runs:
    [(from, to, count, step)] maps [from + i * step] to [to + i * step] for
    every [i] below [count]. *)
Definition lower_runs : list (N * N * N * N) := [
  (65, 97, 26, 1); (192, 224, 23, 1); (216, 248, 7, 1); (256, 257, 24, 2);
  (306, 307, 3, 2); (313, 314, 8, 2); (330, 331, 23, 2); (376, 255, 1, 1);
  (377, 378, 3, 2); (385, 595, 1, 1); (386, 387, 2, 2); (390, 596, 1, 1);
  (391, 392, 1, 1); (393, 598, 2, 1); (395, 396, 1, 1); (398, 477, 1, 1);
  (399, 601, 1, 1); (400, 603, 1, 1); (401, 402, 1, 1); (403, 608, 1, 1);
  (404, 611, 1, 1); (406, 617, 1, 1); (407, 616, 1, 1); (408, 409, 1, 1);
  (412, 623, 1, 1); (413, 626, 1, 1); (415, 629, 1, 1); (416, 417, 3, 2);
  (422, 640, 1, 1); (423, 424, 1, 1); (425, 643, 1, 1); (428, 429, 1, 1);
  (430, 648, 1, 1); (431, 432, 1, 1); (433, 650, 2, 1); (435, 436, 2, 2);
  (439, 658, 1, 1); (440, 441, 1, 1); (444, 445, 1, 1); (452, 454, 1, 1);
  (453, 454, 1, 1); (455, 457, 1, 1); (456, 457, 1, 1); (458, 460, 1, 1);
  (459, 460, 9, 2); (478, 479, 9, 2); (497, 499, 1, 1); (498, 499, 2, 2);
  (502, 405, 1, 1); (503, 447, 1, 1); (504, 505, 20, 2); (544, 414, 1, 1);
  (546, 547, 9, 2); (570, 11365, 1, 1); (571, 572, 1, 1); (573, 410, 1, 1);
  (574, 11366, 1, 1); (577, 578, 1, 1); (579, 384, 1, 1); (580, 649, 1, 1);
  (581, 652, 1, 1); (582, 583, 5, 2); (880, 881, 2, 2); (886, 887, 1, 1);
  (895, 1011, 1, 1); (902, 940, 1, 1); (904, 941, 3, 1); (908, 972, 1, 1);
  (910, 973, 2, 1); (913, 945, 17, 1); (931, 963, 9, 1); (975, 983, 1, 1);
  (984, 985, 12, 2); (1012, 952, 1, 1); (1015, 1016, 1, 1); (1017, 1010, 1,
  1); (1018, 1019, 1, 1); (1021, 891, 3, 1); (1024, 1104, 16, 1); (1040, 1072,
  32, 1); (1120, 1121, 17, 2); (1162, 1163, 27, 2); (1216, 1231, 1, 1); (1217,
  1218, 7, 2); (1232, 1233, 48, 2); (1329, 1377, 38, 1); (4256, 11520, 38, 1);
  (4295, 11559, 1, 1); (4301, 11565, 1, 1); (5024, 43888, 80, 1); (5104, 5112,
  6, 1); (7312, 4304, 43, 1); (7357, 4349, 3, 1); (7680, 7681, 75, 2); (7838,
  223, 1, 1); (7840, 7841, 48, 2); (7944, 7936, 8, 1); (7960, 7952, 6, 1);
  (7976, 7968, 8, 1); (7992, 7984, 8, 1); (8008, 8000, 6, 1); (8025, 8017, 4,
  2); (8040, 8032, 8, 1); (8072, 8064, 8, 1); (8088, 8080, 8, 1); (8104, 8096,
  8, 1); (8120, 8112, 2, 1); (8122, 8048, 2, 1); (8124, 8115, 1, 1); (8136,
  8050, 4, 1); (8140, 8131, 1, 1); (8152, 8144, 2, 1); (8154, 8054, 2, 1);
  (8168, 8160, 2, 1); (8170, 8058, 2, 1); (8172, 8165, 1, 1); (8184, 8056, 2,
  1); (8186, 8060, 2, 1); (8188, 8179, 1, 1); (8486, 969, 1, 1); (8490, 107,
  1, 1); (8491, 229, 1, 1); (8498, 8526, 1, 1); (8544, 8560, 16, 1); (8579,
  8580, 1, 1); (9398, 9424, 26, 1); (11264, 11312, 48, 1); (11360, 11361, 1,
  1); (11362, 619, 1, 1); (11363, 7549, 1, 1); (11364, 637, 1, 1); (11367,
  11368, 3, 2); (11373, 593, 1, 1); (11374, 625, 1, 1); (11375, 592, 1, 1);
  (11376, 594, 1, 1); (11378, 11379, 1, 1); (11381, 11382, 1, 1); (11390, 575,
  2, 1); (11392, 11393, 50, 2); (11499, 11500, 2, 2); (11506, 11507, 1, 1);
  (42560, 42561, 23, 2); (42624, 42625, 14, 2); (42786, 42787, 7, 2); (42802,
  42803, 31, 2); (42873, 42874, 2, 2); (42877, 7545, 1, 1); (42878, 42879, 5,
  2); (42891, 42892, 1, 1); (42893, 613, 1, 1); (42896, 42897, 2, 2); (42902,
  42903, 10, 2); (42922, 614, 1, 1); (42923, 604, 1, 1); (42924, 609, 1, 1);
  (42925, 620, 1, 1); (42926, 618, 1, 1); (42928, 670, 1, 1); (42929, 647, 1,
  1); (42930, 669, 1, 1); (42931, 43859, 1, 1); (42932, 42933, 8, 2); (42948,
  42900, 1, 1); (42949, 642, 1, 1); (42950, 7566, 1, 1); (42951, 42952, 2, 2);
  (42960, 42961, 1, 1); (42966, 42967, 2, 2); (42997, 42998, 1, 1); (65313,
  65345, 26, 1); (66560, 66600, 40, 1); (66736, 66776, 36, 1); (66928, 66967,
  11, 1); (66940, 66979, 15, 1); (66956, 66995, 7, 1); (66964, 67003, 2, 1);
  (68736, 68800, 51, 1); (71840, 71872, 32, 1); (93760, 93792, 32, 1);
  (125184, 125218, 34, 1)
]%N.

Definition run_pairs (run : N * N * N * N) : list (N * N) :=
  let '(from, to, count, step) := run in
  List.map (λ i, (from + N.of_nat i * step, to + N.of_nat i * step)%N)
           (seq 0 (N.to_nat count)).

Definition lower_pairs : list (N * N) := flat_map run_pairs lower_runs.

Fixpoint assoc (c : N) (l : list (N * N)) : option N :=
  match l with
  | [] => None
  | (from, to) :: l' => if (c =? from)%N then Some to else assoc c l'
  end.

(** The lower-case mapping of a code point.  U+0130, the capital I with a
    dot above, is the one code point that lowers to two. *)
Definition lower_point (c : N) : list N :=
  if (c =? 304)%N then [105; 775]%N
  else
    match assoc c lower_pairs with
    | Some to => [to]
    | None => [c]
    end.

Definition in_ranges (c : N) (ranges : list (N * N)) : bool :=
  existsb (λ '(first, last), (first <=? c) && (c <=? last))%N ranges.

(** The code points with the property Case_Ignorable. *)
Definition case_ignorable_ranges : list (N * N) := [
  (39, 39); (46, 46); (58, 58); (94, 94); (96, 96); (168, 168); (173, 173);
  (175, 175); (180, 180); (183, 184); (688, 879); (884, 885); (890, 890);
  (900, 901); (903, 903); (1155, 1161); (1369, 1369); (1375, 1375); (1425,
  1469); (1471, 1471); (1473, 1474); (1476, 1477); (1479, 1479); (1524, 1524);
  (1536, 1541); (1552, 1562); (1564, 1564); (1600, 1600); (1611, 1631); (1648,
  1648); (1750, 1757); (1759, 1768); (1770, 1773); (1807, 1807); (1809, 1809);
  (1840, 1866); (1958, 1968); (2027, 2037); (2042, 2042); (2045, 2045); (2070,
  2093); (2137, 2139); (2184, 2184); (2192, 2193); (2200, 2207); (2249, 2306);
  (2362, 2362); (2364, 2364); (2369, 2376); (2381, 2381); (2385, 2391); (2402,
  2403); (2417, 2417); (2433, 2433); (2492, 2492); (2497, 2500); (2509, 2509);
  (2530, 2531); (2558, 2558); (2561, 2562); (2620, 2620); (2625, 2626); (2631,
  2632); (2635, 2637); (2641, 2641); (2672, 2673); (2677, 2677); (2689, 2690);
  (2748, 2748); (2753, 2757); (2759, 2760); (2765, 2765); (2786, 2787); (2810,
  2815); (2817, 2817); (2876, 2876); (2879, 2879); (2881, 2884); (2893, 2893);
  (2901, 2902); (2914, 2915); (2946, 2946); (3008, 3008); (3021, 3021); (3072,
  3072); (3076, 3076); (3132, 3132); (3134, 3136); (3142, 3144); (3146, 3149);
  (3157, 3158); (3170, 3171); (3201, 3201); (3260, 3260); (3263, 3263); (3270,
  3270); (3276, 3277); (3298, 3299); (3328, 3329); (3387, 3388); (3393, 3396);
  (3405, 3405); (3426, 3427); (3457, 3457); (3530, 3530); (3538, 3540); (3542,
  3542); (3633, 3633); (3636, 3642); (3654, 3662); (3761, 3761); (3764, 3772);
  (3782, 3782); (3784, 3789); (3864, 3865); (3893, 3893); (3895, 3895); (3897,
  3897); (3953, 3966); (3968, 3972); (3974, 3975); (3981, 3991); (3993, 4028);
  (4038, 4038); (4141, 4144); (4146, 4151); (4153, 4154); (4157, 4158); (4184,
  4185); (4190, 4192); (4209, 4212); (4226, 4226); (4229, 4230); (4237, 4237);
  (4253, 4253); (4348, 4348); (4957, 4959); (5906, 5908); (5938, 5939); (5970,
  5971); (6002, 6003); (6068, 6069); (6071, 6077); (6086, 6086); (6089, 6099);
  (6103, 6103); (6109, 6109); (6155, 6159); (6211, 6211); (6277, 6278); (6313,
  6313); (6432, 6434); (6439, 6440); (6450, 6450); (6457, 6459); (6679, 6680);
  (6683, 6683); (6742, 6742); (6744, 6750); (6752, 6752); (6754, 6754); (6757,
  6764); (6771, 6780); (6783, 6783); (6823, 6823); (6832, 6862); (6912, 6915);
  (6964, 6964); (6966, 6970); (6972, 6972); (6978, 6978); (7019, 7027); (7040,
  7041); (7074, 7077); (7080, 7081); (7083, 7085); (7142, 7142); (7144, 7145);
  (7149, 7149); (7151, 7153); (7212, 7219); (7222, 7223); (7288, 7293); (7376,
  7378); (7380, 7392); (7394, 7400); (7405, 7405); (7412, 7412); (7416, 7417);
  (7468, 7530); (7544, 7544); (7579, 7679); (8125, 8125); (8127, 8129); (8141,
  8143); (8157, 8159); (8173, 8175); (8189, 8190); (8203, 8207); (8216, 8217);
  (8228, 8228); (8231, 8231); (8234, 8238); (8288, 8292); (8294, 8303); (8305,
  8305); (8319, 8319); (8336, 8348); (8400, 8432); (11388, 11389); (11503,
  11505); (11631, 11631); (11647, 11647); (11744, 11775); (11823, 11823);
  (12293, 12293); (12330, 12333); (12337, 12341); (12347, 12347); (12441,
  12446); (12540, 12542); (40981, 40981); (42232, 42237); (42508, 42508);
  (42607, 42610); (42612, 42621); (42623, 42623); (42652, 42655); (42736,
  42737); (42752, 42785); (42864, 42864); (42888, 42890); (42994, 42996);
  (43000, 43001); (43010, 43010); (43014, 43014); (43019, 43019); (43045,
  43046); (43052, 43052); (43204, 43205); (43232, 43249); (43263, 43263);
  (43302, 43309); (43335, 43345); (43392, 43394); (43443, 43443); (43446,
  43449); (43452, 43453); (43471, 43471); (43493, 43494); (43561, 43566);
  (43569, 43570); (43573, 43574); (43587, 43587); (43596, 43596); (43632,
  43632); (43644, 43644); (43696, 43696); (43698, 43700); (43703, 43704);
  (43710, 43711); (43713, 43713); (43741, 43741); (43756, 43757); (43763,
  43764); (43766, 43766); (43867, 43871); (43881, 43883); (44005, 44005);
  (44008, 44008); (44013, 44013); (64286, 64286); (64434, 64450); (65024,
  65039); (65043, 65043); (65056, 65071); (65106, 65106); (65109, 65109);
  (65279, 65279); (65287, 65287); (65294, 65294); (65306, 65306); (65342,
  65342); (65344, 65344); (65392, 65392); (65438, 65439); (65507, 65507);
  (65529, 65531); (66045, 66045); (66272, 66272); (66422, 66426); (67456,
  67461); (67463, 67504); (67506, 67514); (68097, 68099); (68101, 68102);
  (68108, 68111); (68152, 68154); (68159, 68159); (68325, 68326); (68900,
  68903); (69291, 69292); (69446, 69456); (69506, 69509); (69633, 69633);
  (69688, 69702); (69744, 69744); (69747, 69748); (69759, 69761); (69811,
  69814); (69817, 69818); (69821, 69821); (69826, 69826); (69837, 69837);
  (69888, 69890); (69927, 69931); (69933, 69940); (70003, 70003); (70016,
  70017); (70070, 70078); (70089, 70092); (70095, 70095); (70191, 70193);
  (70196, 70196); (70198, 70199); (70206, 70206); (70367, 70367); (70371,
  70378); (70400, 70401); (70459, 70460); (70464, 70464); (70502, 70508);
  (70512, 70516); (70712, 70719); (70722, 70724); (70726, 70726); (70750,
  70750); (70835, 70840); (70842, 70842); (70847, 70848); (70850, 70851);
  (71090, 71093); (71100, 71101); (71103, 71104); (71132, 71133); (71219,
  71226); (71229, 71229); (71231, 71232); (71339, 71339); (71341, 71341);
  (71344, 71349); (71351, 71351); (71453, 71455); (71458, 71461); (71463,
  71467); (71727, 71735); (71737, 71738); (71995, 71996); (71998, 71998);
  (72003, 72003); (72148, 72151); (72154, 72155); (72160, 72160); (72193,
  72202); (72243, 72248); (72251, 72254); (72263, 72263); (72273, 72278);
  (72281, 72283); (72330, 72342); (72344, 72345); (72752, 72758); (72760,
  72765); (72767, 72767); (72850, 72871); (72874, 72880); (72882, 72883);
  (72885, 72886); (73009, 73014); (73018, 73018); (73020, 73021); (73023,
  73029); (73031, 73031); (73104, 73105); (73109, 73109); (73111, 73111);
  (73459, 73460); (78896, 78904); (92912, 92916); (92976, 92982); (92992,
  92995); (94031, 94031); (94095, 94111); (94176, 94177); (94179, 94180);
  (110576, 110579); (110581, 110587); (110589, 110590); (113821, 113822);
  (113824, 113827); (118528, 118573); (118576, 118598); (119143, 119145);
  (119155, 119170); (119173, 119179); (119210, 119213); (119362, 119364);
  (121344, 121398); (121403, 121452); (121461, 121461); (121476, 121476);
  (121499, 121503); (121505, 121519); (122880, 122886); (122888, 122904);
  (122907, 122913); (122915, 122916); (122918, 122922); (123184, 123197);
  (123566, 123566); (123628, 123631); (125136, 125142); (125252, 125259);
  (127995, 127999); (917505, 917505); (917536, 917631); (917760, 917999)
]%N.

(** The code points with the property Cased and without Case_Ignorable. *)
Definition cased_ranges : list (N * N) := [
  (65, 90); (97, 122); (170, 170); (181, 181); (186, 186); (192, 214); (216,
  246); (248, 442); (444, 447); (452, 659); (661, 687); (880, 883); (886,
  887); (891, 893); (895, 895); (902, 902); (904, 906); (908, 908); (910,
  929); (931, 1013); (1015, 1153); (1162, 1327); (1329, 1366); (1376, 1416);
  (4256, 4293); (4295, 4295); (4301, 4301); (4304, 4346); (4349, 4351); (5024,
  5109); (5112, 5117); (7296, 7304); (7312, 7354); (7357, 7359); (7424, 7467);
  (7531, 7543); (7545, 7578); (7680, 7957); (7960, 7965); (7968, 8005); (8008,
  8013); (8016, 8023); (8025, 8025); (8027, 8027); (8029, 8029); (8031, 8061);
  (8064, 8116); (8118, 8124); (8126, 8126); (8130, 8132); (8134, 8140); (8144,
  8147); (8150, 8155); (8160, 8172); (8178, 8180); (8182, 8188); (8450, 8450);
  (8455, 8455); (8458, 8467); (8469, 8469); (8473, 8477); (8484, 8484); (8486,
  8486); (8488, 8488); (8490, 8493); (8495, 8500); (8505, 8505); (8508, 8511);
  (8517, 8521); (8526, 8526); (8544, 8575); (8579, 8580); (9398, 9449);
  (11264, 11387); (11390, 11492); (11499, 11502); (11506, 11507); (11520,
  11557); (11559, 11559); (11565, 11565); (42560, 42605); (42624, 42651);
  (42786, 42863); (42865, 42887); (42891, 42894); (42896, 42954); (42960,
  42961); (42963, 42963); (42965, 42969); (42997, 42998); (43002, 43002);
  (43824, 43866); (43872, 43880); (43888, 43967); (64256, 64262); (64275,
  64279); (65313, 65338); (65345, 65370); (66560, 66639); (66736, 66771);
  (66776, 66811); (66928, 66938); (66940, 66954); (66956, 66962); (66964,
  66965); (66967, 66977); (66979, 66993); (66995, 67001); (67003, 67004);
  (68736, 68786); (68800, 68850); (71840, 71903); (93760, 93823); (119808,
  119892); (119894, 119964); (119966, 119967); (119970, 119970); (119973,
  119974); (119977, 119980); (119982, 119993); (119995, 119995); (119997,
  120003); (120005, 120069); (120071, 120074); (120077, 120084); (120086,
  120092); (120094, 120121); (120123, 120126); (120128, 120132); (120134,
  120134); (120138, 120144); (120146, 120485); (120488, 120512); (120514,
  120538); (120540, 120570); (120572, 120596); (120598, 120628); (120630,
  120654); (120656, 120686); (120688, 120712); (120714, 120744); (120746,
  120770); (120772, 120779); (122624, 122633); (122635, 122654); (125184,
  125251); (127280, 127305); (127312, 127337); (127344, 127369)
]%N.

Definition case_ignorable (c : N) : bool := in_ranges c case_ignorable_ranges.
Definition cased (c : N) : bool := in_ranges c cased_ranges.

(** The text that follows is case-ignorable characters and then a cased
    letter. *)
Fixpoint followed_by_cased (l : list N) : bool :=
  match l with
  | [] => false
  | c :: l' => if case_ignorable c then followed_by_cased l' else cased c
  end.

(** Lower-cases code points one after the other.  [after_cased] says that
    the text before is a cased letter and then case-ignorable characters.
    A capital sigma (U+03A3) there, with no cased letter following in the
    same way, is in final position and becomes U+03C2; any other capital
    sigma becomes U+03C3. *)
Fixpoint lower_points (after_cased : bool) (l : list N) : list N :=
  match l with
  | [] => []
  | c :: l' =>
      ((if (c =? 931)%N
        then if after_cased && negb (followed_by_cased l')
             then [962]%N else [963]%N
        else lower_point c)
       ++ lower_points (if case_ignorable c then after_cased else cased c)
            l')%list
  end.

(** [s.toLowerCase()].  A sequence of bytes that is not UTF-8 stands for no
    string; it is left as it is. *)
Definition toLowerCase (s : string) : string :=
  match decode s with
  | Some l => encode (lower_points false l)
  | None => s
  end.

(** ** [String.prototype.includes] *)

Fixpoint startsWith (s t : string) {struct t} : bool :=
  match t with
  | EmptyString => true
  | String b t' =>
      match s with
      | EmptyString => false
      | String a s' => if Ascii.eqb a b then startsWith s' t' else false
      end
  end.

Fixpoint includes (s t : string) : bool :=
  startsWith s t ||
  match s with
  | EmptyString => false
  | String _ s' => includes s' t
  end.

(** ** [Array.prototype.findIndex] and [Array.prototype.slice] *)

Fixpoint findIndex {A : Type} (f : A → bool) (l : list A) : Z :=
  match l with
  | [] => (-1)%Z
  | x :: l' =>
      if f x then 0%Z
      else let i := findIndex f l' in
           if (i =? -1)%Z then (-1)%Z else (i + 1)%Z
  end.

(** A relative index of [slice]: negative values count from the end, and the
    result is clamped to [0 .. len]. *)
Definition relative_index (len i : Z) : Z :=
  if (i <? 0)%Z then Z.max (len + i) 0 else Z.min i len.

Definition slice {A : Type} (l : list A) (start stop : Z) : list A :=
  let len := Z.of_nat (length l) in
  let k := relative_index len start in
  let final := relative_index len stop in
  take (Z.to_nat (final - k)) (drop (Z.to_nat k) l).

(** [l.slice(start)]: the end defaults to the length. *)
Definition slice_from {A : Type} (l : list A) (start : Z) : list A :=
  slice l start (Z.of_nat (length l)).

(** * Data model *)

Module MedicalRecord.
Record t : Type := mk {
  id : string;
  patientId : string;
  diagnosis : string;
  treatment : string;
  date : nat64
}.
End MedicalRecord.

Module Patient.
Record t : Type := mk {
  id : string;
  name : string;
  age : number;
  gender : string;
  admittedAt : option nat64;
  dischargedAt : option nat64;
  isAdmitted : bool;
  medicalRecords : list MedicalRecord.t
}.
End Patient.

Module PatientPayload.
Record t : Type := mk {
  name : string;
  age : number;
  gender : string;
  medicalRecords : list MedicalRecord.t
}.
End PatientPayload.

(** [Result<T, E>]: exactly one of [{ Ok: value }] and [{ Err: error }]. *)
Inductive Result (T E : Type) : Type :=
| Ok (value : T)
| Err (error : E).
Arguments Ok {T E} value.
Arguments Err {T E} error.

(** * The canister state and the store calls *)

(** A call of a [StableBTreeMap] method, as the operations make them. *)
Inductive StoreCall : Type :=
| CallGet (key : string)
| CallInsert (key : string)
| CallRemove (key : string)
| CallValues.

(** The state is the content of [patientStorage] together with the list of
    map calls made so far, the most recent first. *)
Record State : Type := mkState {
  patientStorage : gmap string Patient.t;
  calls : list StoreCall
}.

Definition init : State := mkState ∅ [].

(** An operation reads and writes the state and produces a value. *)
Definition M (A : Type) : Type := State → A * State.

Definition ret {A : Type} (a : A) : M A := fun s => (a, s).

Definition bind {A B : Type} (m : M A) (k : A → M B) : M B :=
  fun s => let (a, s') := m s in k a s'.

Notation "'let*' x ':=' m 'in' k" := (bind m (fun x => k))
  (at level 10, x name, m at level 100, k at level 200).

(** [patientStorage.get(key)]. *)
Definition storage_get (key : string) : M (option Patient.t) :=
  fun s => (patientStorage s !! key,
            mkState (patientStorage s) (CallGet key :: calls s)).

(** [patientStorage.insert(key, value)]: writes [value] at [key] and returns
    the value it replaces. *)
Definition storage_insert (key : string) (value : Patient.t)
  : M (option Patient.t) :=
  fun s => (patientStorage s !! key,
            mkState (<[key := value]> (patientStorage s))
                    (CallInsert key :: calls s)).

(** [patientStorage.remove(key)]: deletes [key] and returns the value that
    was stored there. *)
Definition storage_remove (key : string) : M (option Patient.t) :=
  fun s => (patientStorage s !! key,
            mkState (delete key (patientStorage s))
                    (CallRemove key :: calls s)).

(** [patientStorage.values()]: every stored value once, in the order of the
    map (no operation depends on which order that is). *)
Definition storage_values : M (list Patient.t) :=
  fun s => ((map_to_list (patientStorage s)).*2,
            mkState (patientStorage s) (CallValues :: calls s)).

(** * Identifier validation *)

(** One character of the class [[\da-f]] under the [i] flag. *)
Definition hex_digit (c : ascii) : bool :=
  let n := N_of_ascii c in
  ((48 <=? n) && (n <=? 57) || (97 <=? n) && (n <=? 102)
   || (65 <=? n) && (n <=? 70))%N.

(** [[\da-f]{n}]: [n] hexadecimal digits, then the rest of the input. *)
Fixpoint hex_digits (n : nat) (s : string) : option string :=
  match n with
  | O => Some s
  | S n' =>
      match s with
      | String c s' => if hex_digit c then hex_digits n' s' else None
      | EmptyString => None
      end
  end.

(** A literal [-]. *)
Definition hyphen (s : string) : option string :=
  match s with
  | String c s' => if Ascii.eqb c "-" then Some s' else None
  | EmptyString => None
  end.

(** Concatenation of patterns: [p] matches what the previous pattern left. *)
Definition followed_by (r : option string) (p : string → option string)
  : option string :=
  match r with
  | Some rest => p rest
  | None => None
  end.

Infix ">>>" := followed_by (at level 50, left associativity).

(** [([\da-f]{4}-)]. *)
Definition hex_group (s : string) : option string :=
  hex_digits 4 s >>> hyphen.

(** [/^[\da-f]{8}-([\da-f]{4}-){3}[\da-f]{12}$/i.test(id)]. *)
Definition isValidUUID (id : string) : bool :=
  match hex_digits 8 id >>> hyphen
        >>> hex_group >>> hex_group >>> hex_group
        >>> hex_digits 12 with
  | Some EmptyString => true
  | _ => false
  end.

(** * The operations *)

Definition addPatient (uuid : string) (payload : PatientPayload.t)
  : M (Result Patient.t string) :=
  if falsy_string (PatientPayload.name payload)
     || falsy_number (PatientPayload.age payload)
     || falsy_string (PatientPayload.gender payload)
  then ret (Err "Missing required fields in the patient object")
  else
    let patientId := uuid in
    let newPatient := {|
      Patient.id := patientId;
      Patient.isAdmitted := false;
      Patient.admittedAt := None;
      Patient.dischargedAt := None;
      Patient.name := PatientPayload.name payload;
      Patient.age := PatientPayload.age payload;
      Patient.gender := PatientPayload.gender payload;
      Patient.medicalRecords := PatientPayload.medicalRecords payload
    |} in
    let* _ := storage_insert (Patient.id newPatient) newPatient in
    ret (Ok newPatient).

Definition getPatients : M (Result (list Patient.t) string) :=
  let* patients := storage_values in
  ret (Ok patients).

Definition getPatient (id : string) : M (Result Patient.t string) :=
  if falsy_string id then ret (Err "Invalid ID for getting a patient.")
  else
    let* found := storage_get id in
    match found with
    | Some patient => ret (Ok patient)
    | None => ret (Err ("Patient with id=" +:+ id +:+ " not found"))
    end.

(** [{ ...existingPatient, ...payload }]: the four properties of the payload
    replace those of the stored patient, the other four are kept. *)
Definition spread_payload (existingPatient : Patient.t)
    (payload : PatientPayload.t) : Patient.t := {|
  Patient.id := Patient.id existingPatient;
  Patient.admittedAt := Patient.admittedAt existingPatient;
  Patient.dischargedAt := Patient.dischargedAt existingPatient;
  Patient.isAdmitted := Patient.isAdmitted existingPatient;
  Patient.name := PatientPayload.name payload;
  Patient.age := PatientPayload.age payload;
  Patient.gender := PatientPayload.gender payload;
  Patient.medicalRecords := PatientPayload.medicalRecords payload
|}.

Definition updatePatient (id : string) (payload : PatientPayload.t)
  : M (Result Patient.t string) :=
  if falsy_string id then ret (Err "Invalid ID for updating a patient.")
  else if falsy_string (PatientPayload.name payload)
          || falsy_number (PatientPayload.age payload)
          || falsy_string (PatientPayload.gender payload)
  then ret (Err "Missing required fields in the patient object")
  else
    let* found := storage_get id in
    match found with
    | Some existingPatient =>
        let updatedPatient := spread_payload existingPatient payload in
        let* _ := storage_insert id updatedPatient in
        ret (Ok updatedPatient)
    | None => ret (Err ("Patient with id=" +:+ id +:+ " does not exist"))
    end.

(** [{ ...patient, medicalRecords: records }]. *)
Definition with_medicalRecords (patient : Patient.t)
    (records : list MedicalRecord.t) : Patient.t := {|
  Patient.id := Patient.id patient;
  Patient.name := Patient.name patient;
  Patient.age := Patient.age patient;
  Patient.gender := Patient.gender patient;
  Patient.admittedAt := Patient.admittedAt patient;
  Patient.dischargedAt := Patient.dischargedAt patient;
  Patient.isAdmitted := Patient.isAdmitted patient;
  Patient.medicalRecords := records
|}.

Definition addMedicalRecord (patientId : string)
    (medicalRecord : MedicalRecord.t) : M (Result Patient.t string) :=
  if falsy_string patientId
  then ret (Err "Invalid patient ID for adding a medical record.")
  else
    let* found := storage_get patientId in
    match found with
    | Some patient =>
        let updatedPatient :=
          with_medicalRecords patient
            (Patient.medicalRecords patient ++ [medicalRecord])%list in
        let* _ := storage_insert patientId updatedPatient in
        ret (Ok updatedPatient)
    | None =>
        ret (Err ("Patient with id=" +:+ patientId +:+ " does not exist"))
    end.

(** [record => record.id === medicalRecordId]. *)
Definition has_id (medicalRecordId : string) (record : MedicalRecord.t)
  : bool :=
  String.eqb (MedicalRecord.id record) medicalRecordId.

Definition record_not_found (medicalRecordId patientId : string) : string :=
  "Medical record with id=" +:+ medicalRecordId
    +:+ " not found for patient with id=" +:+ patientId.

Definition updateMedicalRecord (patientId medicalRecordId : string)
    (updatedMedicalRecord : MedicalRecord.t) : M (Result Patient.t string) :=
  if falsy_string patientId || falsy_string medicalRecordId
  then ret (Err "Invalid patient or medical record ID for updating a medical record.")
  else
    let* found := storage_get patientId in
    match found with
    | Some patient =>
        let recordIndex :=
          findIndex (has_id medicalRecordId) (Patient.medicalRecords patient) in
        if negb (recordIndex =? -1)%Z then
          let updatedMedicalRecords :=
            (slice (Patient.medicalRecords patient) 0 recordIndex
               ++ [updatedMedicalRecord]
               ++ slice_from (Patient.medicalRecords patient)
                    (recordIndex + 1))%list in
          let updatedPatient :=
            with_medicalRecords patient updatedMedicalRecords in
          let* _ := storage_insert patientId updatedPatient in
          ret (Ok updatedPatient)
        else ret (Err (record_not_found medicalRecordId patientId))
    | None =>
        ret (Err ("Patient with id=" +:+ patientId +:+ " does not exist"))
    end.

Definition deleteMedicalRecord (patientId medicalRecordId : string)
  : M (Result Patient.t string) :=
  if falsy_string patientId || falsy_string medicalRecordId
  then ret (Err "Invalid patient or medical record ID for deleting a medical record.")
  else
    let* found := storage_get patientId in
    match found with
    | Some patient =>
        let recordIndex :=
          findIndex (has_id medicalRecordId) (Patient.medicalRecords patient) in
        if negb (recordIndex =? -1)%Z then
          let updatedMedicalRecords :=
            (slice (Patient.medicalRecords patient) 0 recordIndex
               ++ slice_from (Patient.medicalRecords patient)
                    (recordIndex + 1))%list in
          let updatedPatient :=
            with_medicalRecords patient updatedMedicalRecords in
          let* _ := storage_insert patientId updatedPatient in
          ret (Ok updatedPatient)
        else ret (Err (record_not_found medicalRecordId patientId))
    | None =>
        ret (Err ("Patient with id=" +:+ patientId +:+ " does not exist"))
    end.

Definition searchPatients (query : string)
  : M (Result (list Patient.t) string) :=
  let lowerCaseQuery := toLowerCase query in
  let* patients := storage_values in
  let filteredPatients :=
    List.filter
      (fun patient =>
         includes (toLowerCase (Patient.name patient)) lowerCaseQuery)
      patients in
  ret (Ok filteredPatients).

Definition admitPatient (now : nat64) (id : string)
  : M (Result Patient.t string) :=
  if falsy_string id then ret (Err "Invalid ID for admitting a patient.")
  else
    let* found := storage_get id in
    match found with
    | Some patient =>
        if Patient.isAdmitted patient
        then ret (Err ("Patient with id=" +:+ id +:+ " is already admitted"))
        else
          let newPatient := {|
            Patient.id := Patient.id patient;
            Patient.name := Patient.name patient;
            Patient.age := Patient.age patient;
            Patient.gender := Patient.gender patient;
            Patient.dischargedAt := Patient.dischargedAt patient;
            Patient.medicalRecords := Patient.medicalRecords patient;
            Patient.isAdmitted := true;
            Patient.admittedAt := Some now
          |} in
          let* _ := storage_insert id newPatient in
          ret (Ok newPatient)
    | None => ret (Err ("Patient with id=" +:+ id +:+ " not found"))
    end.

Definition getMedicalRecords (id : string)
  : M (Result (list MedicalRecord.t) string) :=
  if falsy_string id then ret (Err "Invalid ID for getting medical records.")
  else
    let* found := storage_get id in
    match found with
    | Some patient => ret (Ok (Patient.medicalRecords patient))
    | None => ret (Err ("Patient with id=" +:+ id +:+ " not found"))
    end.

Definition dischargePatient (now : nat64) (id : string)
  : M (Result Patient.t string) :=
  if falsy_string id then ret (Err "Invalid ID for discharging a patient.")
  else
    let* found := storage_get id in
    match found with
    | Some patient =>
        if negb (Patient.isAdmitted patient)
        then ret (Err ("Patient with id=" +:+ id
                         +:+ " is not currently admitted"))
        else
          let newPatient := {|
            Patient.id := Patient.id patient;
            Patient.name := Patient.name patient;
            Patient.age := Patient.age patient;
            Patient.gender := Patient.gender patient;
            Patient.admittedAt := Patient.admittedAt patient;
            Patient.medicalRecords := Patient.medicalRecords patient;
            Patient.isAdmitted := false;
            Patient.dischargedAt := Some now
          |} in
          let* _ := storage_insert id newPatient in
          ret (Ok newPatient)
    | None => ret (Err ("Patient with id=" +:+ id +:+ " not found"))
    end.

Definition deletePatient (id : string)
  : M (Result (option Patient.t) string) :=
  if negb (isValidUUID id) then ret (Err "Invalid patient ID")
  else
    let* deletedPatient := storage_remove id in
    if falsy_Opt deletedPatient
    then ret (Err ("Patient with ID " +:+ id +:+ " does not exist"))
    else ret (Ok deletedPatient).

(** * The canister as a transition system *)

(** One call of an exported function, with the values the call draws from
    the environment ([uuid] for [uuidv4()], [now] for [ic.time()]). *)
Inductive Call : Type :=
| AddPatient (uuid : string) (payload : PatientPayload.t)
| GetPatients
| GetPatient (id : string)
| UpdatePatient (id : string) (payload : PatientPayload.t)
| AddMedicalRecord (patientId : string) (medicalRecord : MedicalRecord.t)
| UpdateMedicalRecord (patientId medicalRecordId : string)
    (updatedMedicalRecord : MedicalRecord.t)
| DeleteMedicalRecord (patientId medicalRecordId : string)
| SearchPatients (query : string)
| AdmitPatient (now : nat64) (id : string)
| GetMedicalRecords (id : string)
| DischargePatient (now : nat64) (id : string)
| DeletePatient (id : string).

(** The state a call leaves behind. *)
Definition exec (c : Call) (s : State) : State :=
  match c with
  | AddPatient uuid payload => (addPatient uuid payload s).2
  | GetPatients => (getPatients s).2
  | GetPatient id => (getPatient id s).2
  | UpdatePatient id payload => (updatePatient id payload s).2
  | AddMedicalRecord pid r => (addMedicalRecord pid r s).2
  | UpdateMedicalRecord pid rid r => (updateMedicalRecord pid rid r s).2
  | DeleteMedicalRecord pid rid => (deleteMedicalRecord pid rid s).2
  | SearchPatients q => (searchPatients q s).2
  | AdmitPatient now id => (admitPatient now id s).2
  | GetMedicalRecords id => (getMedicalRecords id s).2
  | DischargePatient now id => (dischargePatient now id s).2
  | DeletePatient id => (deletePatient id s).2
  end.

(** The patient id a call operates on: its [id] or [patientId] argument, or
    the generated id for [addPatient]. *)
Definition target (c : Call) : option string :=
  match c with
  | AddPatient uuid _ => Some uuid
  | GetPatients => None
  | GetPatient id => Some id
  | UpdatePatient id _ => Some id
  | AddMedicalRecord pid _ => Some pid
  | UpdateMedicalRecord pid _ _ => Some pid
  | DeleteMedicalRecord pid _ => Some pid
  | SearchPatients _ => None
  | AdmitPatient _ id => Some id
  | GetMedicalRecords id => Some id
  | DischargePatient _ id => Some id
  | DeletePatient id => Some id
  end.

(** The functions annotated [$query]. *)
Definition is_query (c : Call) : bool :=
  match c with
  | GetPatients | GetPatient _ | SearchPatients _ | GetMedicalRecords _ => true
  | _ => false
  end.

(** What [uuidv4()] can return: a string of the UUID shape. *)
Definition generated (c : Call) : Prop :=
  match c with
  | AddPatient uuid _ => isValidUUID uuid = true
  | _ => True
  end.

(** The states the canister can be in: the empty store, and what any call
    makes of a state it can be in. *)
Inductive reachable : State → Prop :=
| reachable_init : reachable init
| reachable_exec (c : Call) (s : State) :
    reachable s → generated c → reachable (exec c s).

(** [p] is a value of the store. *)
Definition stored (s : State) (p : Patient.t) : Prop :=
  ∃ key, patientStorage s !! key = Some p.

(** An admitted patient carries an admission time. *)
Definition admitted_has_time (p : Patient.t) : Prop :=
  Patient.isAdmitted p = true → is_Some (Patient.admittedAt p).

Definition admission_invariant (s : State) : Prop :=
  map_Forall (λ _ p, admitted_has_time p) (patientStorage s).

(** Every key is a generated id, and is the [id] of the patient under it. *)
Definition keys_invariant (s : State) : Prop :=
  map_Forall (λ key p, isValidUUID key = true ∧ Patient.id p = key)
             (patientStorage s).

(** ** Case-insensitive containment, as the specification words it *)

Definition same_ignoring_case (a b : string) : Prop :=
  toLowerCase a = toLowerCase b.

(** [q] occurs in [name] up to the case of its letters: some contiguous part
    of [name] equals [q] when case is ignored. *)
Definition contains_ignoring_case (name q : string) : Prop :=
  ∃ before part after,
    name = before +:+ part +:+ after ∧ same_ignoring_case part q.

(** ** First-match addressing of medical records, as the specification
    words it *)

(** [i] is the first position of [l] holding a record with id [rid]. *)
Definition first_match (rid : string) (l : list MedicalRecord.t) (i : nat)
  : Prop :=
  (∃ r, l !! i = Some r ∧ MedicalRecord.id r = rid)
  ∧ ∀ j r, j < i → l !! j = Some r → MedicalRecord.id r ≠ rid.

(** The contract of [updateMedicalRecord] and [deleteMedicalRecord] for the
    patient [p] stored at [pid], a record id [rid] and a new record [newr]. *)
Definition first_match_contract (s : State) (pid : string) (p : Patient.t)
    (rid : string) (newr : MedicalRecord.t) : Prop :=
  let l := Patient.medicalRecords p in
  (∀ i, first_match rid l i →
     (∃ p' s',
        updateMedicalRecord pid rid newr s = (Ok p', s')
        ∧ patientStorage s' !! pid = Some p'
        ∧ p' = with_medicalRecords p (<[i := newr]> l)
        ∧ length (Patient.medicalRecords p') = length l
        ∧ Patient.medicalRecords p' !! i = Some newr
        ∧ ∀ j, j ≠ i → Patient.medicalRecords p' !! j = l !! j)
     ∧ (∃ p' s',
        deleteMedicalRecord pid rid s = (Ok p', s')
        ∧ patientStorage s' !! pid = Some p'
        ∧ p' = with_medicalRecords p (take i l ++ drop (S i) l)%list))
  ∧ ((∀ r, r ∈ l → MedicalRecord.id r ≠ rid) →
     (∃ s', updateMedicalRecord pid rid newr s
              = (Err (record_not_found rid pid), s')
            ∧ patientStorage s' = patientStorage s)
     ∧ (∃ s', deleteMedicalRecord pid rid s
              = (Err (record_not_found rid pid), s')
            ∧ patientStorage s' = patientStorage s)).

(** * Sample data *)

Definition uuid_a : string := "123e4567-e89b-42d3-a456-426614174000".
Definition uuid_b : string := "9B2C0D1E-0000-4fff-8abc-0123456789AB".

(** The number [30]. *)
Definition thirty : number := S754_finite false 8444249301319680 (-48).

Definition ann : PatientPayload.t :=
  PatientPayload.mk "Ann" thirty "F" [].

Definition record_x : MedicalRecord.t :=
  MedicalRecord.mk "x" uuid_a "flu" "rest" 1%N.
Definition record_y : MedicalRecord.t :=
  MedicalRecord.mk "y" uuid_a "cough" "syrup" 2%N.
Definition record_x' : MedicalRecord.t :=
  MedicalRecord.mk "x" uuid_a "sprain" "ice" 3%N.
Definition record_z : MedicalRecord.t :=
  MedicalRecord.mk "z" uuid_a "checkup" "none" 4%N.
(** A record whose caller-supplied id is the empty string. *)
Definition record_unnamed : MedicalRecord.t :=
  MedicalRecord.mk "" uuid_a "fever" "fluids" 5%N.

(** The store after [addPatient(ann)]. *)
Definition with_ann : State := exec (AddPatient uuid_a ann) init.

(** Ann as [addPatient] creates her. *)
Definition ann_created : Patient.t :=
  Patient.mk uuid_a "Ann" thirty "F" None None false [].

(** The store after Ann received the records [x], [y] and a second [x]. *)
Definition with_records : State :=
  exec (AddMedicalRecord uuid_a record_x')
    (exec (AddMedicalRecord uuid_a record_y)
       (exec (AddMedicalRecord uuid_a record_x) with_ann)).

(** The store after Ann received a record with the empty id. *)
Definition with_unnamed_record : State :=
  exec (AddMedicalRecord uuid_a record_unnamed) with_ann.

(** The store after Ann was admitted at time [7]. *)
Definition with_ann_admitted : State := exec (AdmitPatient 7%N uuid_a) with_ann.

Definition bob : Patient.t :=
  Patient.mk "p1" "Bob" thirty "M" None None false [].

(** A store whose only key is not of the UUID shape. *)
Definition with_short_key : State := mkState {[ "p1" := bob ]} [].

Definition joanna : PatientPayload.t :=
  PatientPayload.mk "Joanna" thirty "F" [record_y].

(** The store after [addPatient(ann)] and [addPatient(joanna)]. *)
Definition with_two : State := exec (AddPatient uuid_b joanna) with_ann.

(** * Replies and input validation *)

(** What a call answers: one of the four result types of the service. *)
Inductive Reply : Type :=
| ReplyPatient (r : Result Patient.t string)
| ReplyPatients (r : Result (list Patient.t) string)
| ReplyRecords (r : Result (list MedicalRecord.t) string)
| ReplyDeleted (r : Result (option Patient.t) string).

Definition reply (c : Call) (s : State) : Reply :=
  match c with
  | AddPatient uuid payload => ReplyPatient (addPatient uuid payload s).1
  | GetPatients => ReplyPatients (getPatients s).1
  | GetPatient id => ReplyPatient (getPatient id s).1
  | UpdatePatient id payload => ReplyPatient (updatePatient id payload s).1
  | AddMedicalRecord pid r => ReplyPatient (addMedicalRecord pid r s).1
  | UpdateMedicalRecord pid rid r =>
      ReplyPatient (updateMedicalRecord pid rid r s).1
  | DeleteMedicalRecord pid rid =>
      ReplyPatient (deleteMedicalRecord pid rid s).1
  | SearchPatients q => ReplyPatients (searchPatients q s).1
  | AdmitPatient now id => ReplyPatient (admitPatient now id s).1
  | GetMedicalRecords id => ReplyRecords (getMedicalRecords id s).1
  | DischargePatient now id => ReplyPatient (dischargePatient now id s).1
  | DeletePatient id => ReplyDeleted (deletePatient id s).1
  end.

Definition is_Err {T E : Type} (r : Result T E) : bool :=
  match r with
  | Ok _ => false
  | Err _ => true
  end.

(** The call answered with [Err]. *)
Definition failed (c : Call) (s : State) : bool :=
  match reply c s with
  | ReplyPatient r => is_Err r
  | ReplyPatients r => is_Err r
  | ReplyRecords r => is_Err r
  | ReplyDeleted r => is_Err r
  end.

Definition complete (payload : PatientPayload.t) : bool :=
  negb (falsy_string (PatientPayload.name payload)
        || falsy_number (PatientPayload.age payload)
        || falsy_string (PatientPayload.gender payload)).

(** The arguments of a call pass the checks its function makes on them
    before it turns to the store. *)
Definition accepted (c : Call) : bool :=
  match c with
  | AddPatient _ payload => complete payload
  | GetPatients => true
  | GetPatient id => negb (falsy_string id)
  | UpdatePatient id payload => negb (falsy_string id) && complete payload
  | AddMedicalRecord pid _ => negb (falsy_string pid)
  | UpdateMedicalRecord pid rid _ =>
      negb (falsy_string pid || falsy_string rid)
  | DeleteMedicalRecord pid rid =>
      negb (falsy_string pid || falsy_string rid)
  | SearchPatients _ => true
  | AdmitPatient _ id => negb (falsy_string id)
  | GetMedicalRecords id => negb (falsy_string id)
  | DischargePatient _ id => negb (falsy_string id)
  | DeletePatient id => isValidUUID id
  end.

(** ** The parts of a patient *)

Inductive Field : Type :=
| TheId
| TheProfile
| TheAdmission
| TheRecords.

(** [p] and [p'] agree on a part. *)
Definition same_on (f : Field) (p p' : Patient.t) : Prop :=
  match f with
  | TheId => Patient.id p' = Patient.id p
  | TheProfile =>
      Patient.name p' = Patient.name p
      ∧ Patient.age p' = Patient.age p
      ∧ Patient.gender p' = Patient.gender p
  | TheAdmission =>
      Patient.isAdmitted p' = Patient.isAdmitted p
      ∧ Patient.admittedAt p' = Patient.admittedAt p
      ∧ Patient.dischargedAt p' = Patient.dischargedAt p
  | TheRecords => Patient.medicalRecords p' = Patient.medicalRecords p
  end.

(** The parts of a stored patient that the function of a call assigns. *)
Definition writes (c : Call) (f : Field) : bool :=
  match c, f with
  | AddPatient _ _, _ => true
  | UpdatePatient _ _, (TheProfile | TheRecords) => true
  | AddMedicalRecord _ _, TheRecords => true
  | UpdateMedicalRecord _ _ _, TheRecords => true
  | DeleteMedicalRecord _ _, TheRecords => true
  | AdmitPatient _ _, TheAdmission => true
  | DischargePatient _ _, TheAdmission => true
  | _, _ => false
  end.

(** A discharge time is only ever set on a patient that was admitted. *)
Definition discharged_was_admitted (p : Patient.t) : Prop :=
  is_Some (Patient.dischargedAt p) → is_Some (Patient.admittedAt p).

Definition timestamps_invariant (s : State) : Prop :=
  map_Forall (λ _ p, admitted_has_time p ∧ discharged_was_admitted p)
             (patientStorage s).

(** ** The UUID shape, written out *)

Fixpoint all_hex (s : string) : bool :=
  match s with
  | EmptyString => true
  | String c s' => hex_digit c && all_hex s'
  end.

(** [n] hexadecimal digits. *)
Definition hex_block (n : nat) (s : string) : Prop :=
  String.length s = n ∧ all_hex s = true.

(** Five blocks of 8, 4, 4, 4 and 12 hexadecimal digits joined by hyphens. *)
Definition uuid_shape (id : string) : Prop :=
  ∃ a b c d e,
    id = a +:+ "-" +:+ b +:+ "-" +:+ c +:+ "-" +:+ d +:+ "-" +:+ e
    ∧ hex_block 8 a ∧ hex_block 4 b ∧ hex_block 4 c ∧ hex_block 4 d
    ∧ hex_block 12 e.

(** ** Counting the records with a given id *)



(** ** Case-insensitive containment of ASCII text, letter by letter *)

(** One of the letters [A] to [Z]. *)
Definition is_capital (a : ascii) : bool :=
  ((65 <=? N_of_ascii a) && (N_of_ascii a <=? 90))%N.

(** The small letter of a capital letter: [a] for [A], and so on. *)
Definition small_of (a : ascii) : ascii := ascii_of_N (N_of_ascii a + 32).

(** The same character, or the capital and the small form of one letter. *)
Definition same_letter (a b : ascii) : Prop :=
  a = b
  ∨ (is_capital a = true ∧ b = small_of a)
  ∨ (is_capital b = true ∧ a = small_of b).

(** Two texts of the same length that agree character by character, case
    apart. *)
Inductive same_letters : string → string → Prop :=
| same_letters_empty : same_letters "" ""
| same_letters_next (a b : ascii) (s t : string) :
    same_letter a b → same_letters s t →
    same_letters (String a s) (String b t).

(** [q] occurs in [name] when the case of the letters is ignored. *)
Definition occurs_ignoring_case (name q : string) : Prop :=
  ∃ before part after,
    name = before +:+ part +:+ after ∧ same_letters part q.

(** Text of ASCII characters only. *)
Fixpoint is_ascii (s : string) : bool :=
  match s with
  | EmptyString => true
  | String a s' => (N_of_ascii a <? 128)%N && is_ascii s'
  end.

(** Lower-casing of ASCII text, character by character. *)
Definition lower_letter (a : ascii) : ascii :=
  if is_capital a then small_of a else a.

Fixpoint lower_letters (s : string) : string :=
  match s with
  | EmptyString => EmptyString
  | String a s' => String (lower_letter a) (lower_letters s')
  end.

(** The characters a UUID is made of. *)
Definition uuid_character (a : ascii) : bool :=
  hex_digit a || Ascii.eqb a "-".

Fixpoint uuid_characters (s : string) : bool :=
  match s with
  | EmptyString => true
  | String a s' => uuid_character a && uuid_characters s'
  end.

Definition uuid_point (c : N) : bool :=
  (c <? 128)%N && uuid_character (ascii_of_N c).

(** A code point that lower-casing leaves alone. *)
Definition settled (c : N) : bool :=
  negb (c =? 931)%N && negb (c =? 304)%N
  && match assoc c lower_pairs with
     | Some _ => false
     | None => true
     end.

(** A patient whose name is a capital alpha and a capital sigma (U+0391,
    U+03A3); [sigma] is the capital sigma alone. *)
Definition alpha : string := String "206" (String "145" "").
Definition sigma : string := String "206" (String "163" "").

Definition alpha_sigma : PatientPayload.t :=
  PatientPayload.mk (alpha +:+ sigma) thirty "F" [].

Definition alpha_sigma_created : Patient.t :=
  Patient.mk uuid_a (alpha +:+ sigma) thirty "F" None None false [].

(** The store after [addPatient(alpha_sigma)]. *)
Definition with_alpha_sigma : State :=
  exec (AddPatient uuid_a alpha_sigma) init.

(** * Proof automation *)

(** Unfolds an operation down to the store calls it makes. *)
Ltac run_op :=
  unfold addPatient, getPatients, getPatient, updatePatient, addMedicalRecord,
    updateMedicalRecord, deleteMedicalRecord, searchPatients, admitPatient,
    getMedicalRecords, dischargePatient, deletePatient,
    bind, ret, storage_get, storage_insert, storage_remove, storage_values;
  simpl.

(** Brings [exec c s] to the store updates it is made of. *)
Ltac run_exec :=
  simpl; run_op;
  repeat (case_match; simpl);
  simplify_eq/=.

(** Linear arithmetic with division and remainder by constants. *)
Ltac div_lia := zify; Z.to_euclidean_division_equations; lia.

(** Decides the comparisons of the goal that the context settles. *)
Ltac settle_tests :=
  repeat
    (first
       [ rewrite (proj2 (N.ltb_lt _ _)) by div_lia
       | rewrite (proj2 (N.ltb_ge _ _)) by div_lia
       | rewrite (proj2 (N.leb_le _ _)) by div_lia
       | rewrite (proj2 (N.leb_gt _ _)) by div_lia
       | rewrite (proj2 (N.eqb_eq _ _)) by div_lia
       | rewrite (proj2 (N.eqb_neq _ _)) by div_lia ];
     cbn [andb orb negb]).

(** Turns the comparisons among the hypotheses into propositions. *)
Ltac reflect_tests :=
  repeat match goal with
    | H : _ && _ = true |- _ => apply andb_true_iff in H as [? ?]
    | H : _ || _ = true |- _ => apply orb_true_iff in H as [?|?]
    | H : (_ <=? _)%N = true |- _ => apply N.leb_le in H
    | H : (_ <? _)%N = true |- _ => apply N.ltb_lt in H
    | H : (_ <=? _)%N = false |- _ => apply N.leb_gt in H
    | H : (_ <? _)%N = false |- _ => apply N.ltb_ge in H
    | H : (_ =? _)%N = true |- _ => apply N.eqb_eq in H
    | H : (_ =? _)%N = false |- _ => apply N.eqb_neq in H
    end.

(** * Basic facts *)

Lemma falsy_string_false (s : string) : falsy_string s = false ↔ s ≠ "".
Proof. destruct s; simpl; split; congruence. Qed.

Lemma isValidUUID_nonempty (id : string) : isValidUUID id = true → id ≠ "".
Proof. intros H ->. discriminate H. Qed.

(** ** What each operation does once its id passed validation *)

Lemma getPatient_nonempty (id : string) (s : State) :
  id ≠ "" →
  getPatient id s =
    (match patientStorage s !! id with
     | Some patient => Ok patient
     | None => Err ("Patient with id=" +:+ id +:+ " not found")
     end,
     mkState (patientStorage s) (CallGet id :: calls s)).
Proof.
  intros Hid. apply falsy_string_false in Hid.
  unfold getPatient, getMedicalRecords. rewrite Hid. run_op.
  destruct (patientStorage s !! id); reflexivity.
Qed.

Lemma getMedicalRecords_nonempty (id : string) (s : State) :
  id ≠ "" →
  getMedicalRecords id s =
    (match patientStorage s !! id with
     | Some patient => Ok (Patient.medicalRecords patient)
     | None => Err ("Patient with id=" +:+ id +:+ " not found")
     end,
     mkState (patientStorage s) (CallGet id :: calls s)).
Proof.
  intros Hid. apply falsy_string_false in Hid.
  unfold getPatient, getMedicalRecords. rewrite Hid. run_op.
  destruct (patientStorage s !! id); reflexivity.
Qed.

Lemma addMedicalRecord_stored (pid : string) (r : MedicalRecord.t)
    (s : State) (p : Patient.t) :
  pid ≠ "" → patientStorage s !! pid = Some p →
  addMedicalRecord pid r s =
    (Ok (with_medicalRecords p (Patient.medicalRecords p ++ [r])),
     mkState
       (<[pid := with_medicalRecords p (Patient.medicalRecords p ++ [r])]>
          (patientStorage s))
       (CallInsert pid :: CallGet pid :: calls s)).
Proof.
  intros Hid Hp. apply falsy_string_false in Hid.
  unfold addMedicalRecord. rewrite Hid. run_op. rewrite Hp. reflexivity.
Qed.

Lemma updatePatient_stored (id : string) (payload : PatientPayload.t)
    (s : State) (p : Patient.t) :
  id ≠ "" →
  falsy_string (PatientPayload.name payload) = false →
  falsy_number (PatientPayload.age payload) = false →
  falsy_string (PatientPayload.gender payload) = false →
  patientStorage s !! id = Some p →
  updatePatient id payload s =
    (Ok (spread_payload p payload),
     mkState (<[id := spread_payload p payload]> (patientStorage s))
             (CallInsert id :: CallGet id :: calls s)).
Proof.
  intros Hid Hn Ha Hg Hp. apply falsy_string_false in Hid.
  unfold updatePatient. rewrite Hid, Hn, Ha, Hg. run_op.
  rewrite Hp. reflexivity.
Qed.

Lemma admitPatient_stored (now : nat64) (id : string) (s : State)
    (p : Patient.t) :
  id ≠ "" → patientStorage s !! id = Some p →
  admitPatient now id s =
    if Patient.isAdmitted p
    then (Err ("Patient with id=" +:+ id +:+ " is already admitted"),
          mkState (patientStorage s) (CallGet id :: calls s))
    else
      let admitted :=
        Patient.mk (Patient.id p) (Patient.name p) (Patient.age p)
          (Patient.gender p) (Some now) (Patient.dischargedAt p) true
          (Patient.medicalRecords p) in
      (Ok admitted,
       mkState (<[id := admitted]> (patientStorage s))
               (CallInsert id :: CallGet id :: calls s)).
Proof.
  intros Hid Hp. apply falsy_string_false in Hid.
  unfold admitPatient, dischargePatient. rewrite Hid. run_op. rewrite Hp.
  destruct (Patient.isAdmitted p); reflexivity.
Qed.

Lemma dischargePatient_stored (now : nat64) (id : string) (s : State)
    (p : Patient.t) :
  id ≠ "" → patientStorage s !! id = Some p →
  dischargePatient now id s =
    if Patient.isAdmitted p
    then
      let discharged :=
        Patient.mk (Patient.id p) (Patient.name p) (Patient.age p)
          (Patient.gender p) (Patient.admittedAt p) (Some now) false
          (Patient.medicalRecords p) in
      (Ok discharged,
       mkState (<[id := discharged]> (patientStorage s))
               (CallInsert id :: CallGet id :: calls s))
    else (Err ("Patient with id=" +:+ id +:+ " is not currently admitted"),
          mkState (patientStorage s) (CallGet id :: calls s)).
Proof.
  intros Hid Hp. apply falsy_string_false in Hid.
  unfold admitPatient, dischargePatient. rewrite Hid. run_op. rewrite Hp.
  destruct (Patient.isAdmitted p); reflexivity.
Qed.

Lemma deletePatient_valid (id : string) (s : State) :
  isValidUUID id = true →
  deletePatient id s =
    (Ok (patientStorage s !! id),
     mkState (delete id (patientStorage s)) (CallRemove id :: calls s)).
Proof.
  intros Hid. unfold deletePatient. rewrite Hid. run_op.
  destruct (patientStorage s !! id); reflexivity.
Qed.

(** ** What each operation answers for an id that is not a key *)

Lemma updatePatient_absent (id : string) (payload : PatientPayload.t)
    (s : State) :
  id ≠ "" →
  falsy_string (PatientPayload.name payload) = false →
  falsy_number (PatientPayload.age payload) = false →
  falsy_string (PatientPayload.gender payload) = false →
  patientStorage s !! id = None →
  updatePatient id payload s =
    (Err ("Patient with id=" +:+ id +:+ " does not exist"),
     mkState (patientStorage s) (CallGet id :: calls s)).
Proof.
  intros Hid Hn Ha Hg Hp. apply falsy_string_false in Hid.
  unfold updatePatient. rewrite Hid, Hn, Ha, Hg. run_op.
  rewrite Hp. reflexivity.
Qed.

Lemma addMedicalRecord_absent (pid : string) (r : MedicalRecord.t)
    (s : State) :
  pid ≠ "" → patientStorage s !! pid = None →
  addMedicalRecord pid r s =
    (Err ("Patient with id=" +:+ pid +:+ " does not exist"),
     mkState (patientStorage s) (CallGet pid :: calls s)).
Proof.
  intros Hid Hp. apply falsy_string_false in Hid.
  unfold addMedicalRecord. rewrite Hid. run_op. rewrite Hp. reflexivity.
Qed.

Lemma updateMedicalRecord_absent (pid rid : string) (newr : MedicalRecord.t)
    (s : State) :
  pid ≠ "" → rid ≠ "" → patientStorage s !! pid = None →
  updateMedicalRecord pid rid newr s =
    (Err ("Patient with id=" +:+ pid +:+ " does not exist"),
     mkState (patientStorage s) (CallGet pid :: calls s)).
Proof.
  intros Hpid Hrid Hp.
  apply falsy_string_false in Hpid. apply falsy_string_false in Hrid.
  unfold updateMedicalRecord. rewrite Hpid, Hrid. run_op. rewrite Hp.
  reflexivity.
Qed.

Lemma deleteMedicalRecord_absent (pid rid : string) (s : State) :
  pid ≠ "" → rid ≠ "" → patientStorage s !! pid = None →
  deleteMedicalRecord pid rid s =
    (Err ("Patient with id=" +:+ pid +:+ " does not exist"),
     mkState (patientStorage s) (CallGet pid :: calls s)).
Proof.
  intros Hpid Hrid Hp.
  apply falsy_string_false in Hpid. apply falsy_string_false in Hrid.
  unfold deleteMedicalRecord. rewrite Hpid, Hrid. run_op. rewrite Hp.
  reflexivity.
Qed.

Lemma admitPatient_absent (now : nat64) (id : string) (s : State) :
  id ≠ "" → patientStorage s !! id = None →
  admitPatient now id s =
    (Err ("Patient with id=" +:+ id +:+ " not found"),
     mkState (patientStorage s) (CallGet id :: calls s)).
Proof.
  intros Hid Hp. apply falsy_string_false in Hid.
  unfold admitPatient. rewrite Hid. run_op. rewrite Hp. reflexivity.
Qed.

Lemma dischargePatient_absent (now : nat64) (id : string) (s : State) :
  id ≠ "" → patientStorage s !! id = None →
  dischargePatient now id s =
    (Err ("Patient with id=" +:+ id +:+ " not found"),
     mkState (patientStorage s) (CallGet id :: calls s)).
Proof.
  intros Hid Hp. apply falsy_string_false in Hid.
  unfold dischargePatient. rewrite Hid. run_op. rewrite Hp. reflexivity.
Qed.

(** * Arrays: [findIndex] and [slice] *)

Section Arrays.
Context {A : Type}.
Implicit Types (f : A → bool) (l : list A).

Lemma findIndex_bounds f l :
  (-1 ≤ findIndex f l < Z.of_nat (length l))%Z.
Proof.
  induction l as [|x l IH]; simpl; [lia|].
  destruct (f x); [lia|].
  destruct (Z.eqb_spec (findIndex f l) (-1)); lia.
Qed.

(** [findIndex] answers [-1] exactly when no element satisfies [f]. *)
Lemma findIndex_none f l :
  findIndex f l = (-1)%Z ↔ ∀ x, x ∈ l → f x = false.
Proof.
  induction l as [|x l IH]; simpl.
  - split; [intros _ y Hy; inversion Hy | reflexivity].
  - destruct (f x) eqn:Hx.
    + split; [discriminate|]. intros H.
      rewrite (H x) in Hx by constructor. discriminate.
    + pose proof (findIndex_bounds f l) as Hb.
      destruct (Z.eqb_spec (findIndex f l) (-1)) as [He|Hne].
      * split; [|reflexivity]. intros _ y Hy.
        apply elem_of_cons in Hy as [->|Hy]; [assumption|].
        apply IH; assumption.
      * split; [lia|]. intros H. exfalso. apply Hne, IH.
        intros y Hy. apply H. by constructor.
Qed.

(** Otherwise it answers the first position whose element satisfies [f]. *)
Lemma findIndex_first f l (i : nat) :
  findIndex f l = Z.of_nat i ↔
  (∃ x, l !! i = Some x ∧ f x = true)
  ∧ ∀ j y, j < i → l !! j = Some y → f y = false.
Proof.
  revert i. induction l as [|x l IH]; intros i; simpl.
  - split; [lia|]. intros [[y [Hy _]] _]. discriminate Hy.
  - destruct (f x) eqn:Hx.
    + split.
      * intros Hi. assert (i = 0) as -> by lia. split; [by exists x|].
        intros j y Hj. lia.
      * intros [_ Hbefore]. destruct i as [|i]; [reflexivity|].
        rewrite (Hbefore 0 x) in Hx; [discriminate | lia | reflexivity].
    + pose proof (findIndex_bounds f l) as Hb.
      destruct (Z.eqb_spec (findIndex f l) (-1)) as [He|Hne].
      * split; [lia|]. intros [[y [Hy Hfy]] _].
        destruct i as [|i]; simpl in Hy; [congruence|].
        rewrite findIndex_none in He.
        rewrite (He y) in Hfy; [discriminate|].
        apply list_elem_of_lookup. by exists i.
      * split.
        -- intros Hi. destruct i as [|i]; [lia|].
           assert (findIndex f l = Z.of_nat i) as Hi' by lia.
           apply IH in Hi' as [Hat Hbefore]. split; [exact Hat|].
           intros [|j] y Hj Hy; simpl in Hy; [congruence|].
           apply (Hbefore j); [lia | assumption].
        -- intros [[y [Hy Hfy]] Hbefore].
           destruct i as [|i]; simpl in Hy; [congruence|].
           assert (findIndex f l = Z.of_nat i) as ->; [|lia].
           apply IH. split; [by exists y|].
           intros j z Hj Hz. apply (Hbefore (S j)); [lia | exact Hz].
Qed.

Lemma slice_prefix l (i : nat) :
  (i ≤ length l)%nat → slice l 0 (Z.of_nat i) = take i l.
Proof.
  intros Hi. unfold slice, relative_index. simpl.
  destruct (Z.ltb_spec (Z.of_nat i) 0); [lia|].
  rewrite (Z.min_l (Z.of_nat i)), (Z.min_l 0) by lia.
  rewrite Z.sub_0_r, Nat2Z.id. reflexivity.
Qed.

Lemma slice_from_suffix l (i : nat) :
  (i ≤ length l)%nat → slice_from l (Z.of_nat i) = drop i l.
Proof.
  intros Hi. unfold slice_from, slice, relative_index.
  destruct (Z.ltb_spec (Z.of_nat i) 0); [lia|].
  destruct (Z.ltb_spec (Z.of_nat (length l)) 0); [lia|].
  rewrite !Z.min_l by lia. rewrite Nat2Z.id.
  apply take_ge. rewrite length_drop. lia.
Qed.
End Arrays.

(** ** Medical records are addressed by first match *)

Lemma has_id_true (rid : string) (r : MedicalRecord.t) :
  has_id rid r = true ↔ MedicalRecord.id r = rid.
Proof. unfold has_id. apply String.eqb_eq. Qed.

Lemma has_id_false (rid : string) (r : MedicalRecord.t) :
  has_id rid r = false ↔ MedicalRecord.id r ≠ rid.
Proof. unfold has_id. apply String.eqb_neq. Qed.

Lemma first_match_findIndex (rid : string) (l : list MedicalRecord.t)
    (i : nat) :
  first_match rid l i ↔ findIndex (has_id rid) l = Z.of_nat i.
Proof.
  rewrite findIndex_first. unfold first_match. split.
  - intros [[r [Hr Hid]] Hbefore]. split.
    + exists r. by rewrite has_id_true.
    + intros j y Hj Hy. apply has_id_false. by apply (Hbefore j).
  - intros [[r [Hr Hid]] Hbefore]. split.
    + exists r. by rewrite <- has_id_true.
    + intros j y Hj Hy. apply has_id_false. by apply (Hbefore j).
Qed.

Lemma no_match_findIndex (rid : string) (l : list MedicalRecord.t) :
  (∀ r, r ∈ l → MedicalRecord.id r ≠ rid)
  ↔ findIndex (has_id rid) l = (-1)%Z.
Proof.
  rewrite findIndex_none. split; intros H r Hr.
  - apply has_id_false. by apply H.
  - apply has_id_false. by apply H.
Qed.

Lemma updateMedicalRecord_found (pid rid : string) (newr : MedicalRecord.t)
    (s : State) (p : Patient.t) (i : nat) :
  pid ≠ "" → rid ≠ "" → patientStorage s !! pid = Some p →
  first_match rid (Patient.medicalRecords p) i →
  updateMedicalRecord pid rid newr s =
    (Ok (with_medicalRecords p (<[i := newr]> (Patient.medicalRecords p))),
     mkState
       (<[pid := with_medicalRecords p
                   (<[i := newr]> (Patient.medicalRecords p))]>
          (patientStorage s))
       (CallInsert pid :: CallGet pid :: calls s)).
Proof.
  intros Hpid Hrid Hp Hi.
  apply falsy_string_false in Hpid. apply falsy_string_false in Hrid.
  pose proof Hi as [[r [Hr _]] _]. apply lookup_lt_Some in Hr.
  apply first_match_findIndex in Hi.
  unfold updateMedicalRecord. rewrite Hpid, Hrid. run_op. rewrite Hp, Hi.
  destruct (Z.eqb_spec (Z.of_nat i) (-1)); [lia|]. simpl.
  replace (Z.of_nat i + 1)%Z with (Z.of_nat (S i)) by lia.
  rewrite slice_prefix, slice_from_suffix by lia.
  rewrite <- insert_take_drop by lia. reflexivity.
Qed.

Lemma deleteMedicalRecord_found (pid rid : string) (s : State)
    (p : Patient.t) (i : nat) :
  pid ≠ "" → rid ≠ "" → patientStorage s !! pid = Some p →
  first_match rid (Patient.medicalRecords p) i →
  deleteMedicalRecord pid rid s =
    (Ok (with_medicalRecords p
           (take i (Patient.medicalRecords p)
              ++ drop (S i) (Patient.medicalRecords p))%list),
     mkState
       (<[pid := with_medicalRecords p
                   (take i (Patient.medicalRecords p)
                      ++ drop (S i) (Patient.medicalRecords p))%list]>
          (patientStorage s))
       (CallInsert pid :: CallGet pid :: calls s)).
Proof.
  intros Hpid Hrid Hp Hi.
  apply falsy_string_false in Hpid. apply falsy_string_false in Hrid.
  pose proof Hi as [[r [Hr _]] _]. apply lookup_lt_Some in Hr.
  apply first_match_findIndex in Hi.
  unfold deleteMedicalRecord. rewrite Hpid, Hrid. run_op. rewrite Hp, Hi.
  destruct (Z.eqb_spec (Z.of_nat i) (-1)); [lia|]. simpl.
  replace (Z.of_nat i + 1)%Z with (Z.of_nat (S i)) by lia.
  rewrite slice_prefix, slice_from_suffix by lia. reflexivity.
Qed.

Lemma updateMedicalRecord_missing (pid rid : string) (newr : MedicalRecord.t)
    (s : State) (p : Patient.t) :
  pid ≠ "" → rid ≠ "" → patientStorage s !! pid = Some p →
  (∀ r, r ∈ Patient.medicalRecords p → MedicalRecord.id r ≠ rid) →
  updateMedicalRecord pid rid newr s =
    (Err (record_not_found rid pid),
     mkState (patientStorage s) (CallGet pid :: calls s)).
Proof.
  intros Hpid Hrid Hp Hno.
  apply falsy_string_false in Hpid. apply falsy_string_false in Hrid.
  apply no_match_findIndex in Hno.
  unfold updateMedicalRecord. rewrite Hpid, Hrid. run_op. rewrite Hp, Hno.
  reflexivity.
Qed.

Lemma deleteMedicalRecord_missing (pid rid : string) (s : State)
    (p : Patient.t) :
  pid ≠ "" → rid ≠ "" → patientStorage s !! pid = Some p →
  (∀ r, r ∈ Patient.medicalRecords p → MedicalRecord.id r ≠ rid) →
  deleteMedicalRecord pid rid s =
    (Err (record_not_found rid pid),
     mkState (patientStorage s) (CallGet pid :: calls s)).
Proof.
  intros Hpid Hrid Hp Hno.
  apply falsy_string_false in Hpid. apply falsy_string_false in Hrid.
  apply no_match_findIndex in Hno.
  unfold deleteMedicalRecord. rewrite Hpid, Hrid. run_op. rewrite Hp, Hno.
  reflexivity.
Qed.

(** * Strings: containment *)

Lemma startsWith_spec (s t : string) :
  startsWith s t = true ↔ ∃ rest, s = t +:+ rest.
Proof.
  revert s. induction t as [|b t IH]; intros s; simpl.
  - split; [by exists s | reflexivity].
  - destruct s as [|a s].
    + split; [discriminate | intros [rest H]; discriminate H].
    + destruct (Ascii.eqb_spec a b) as [->|Hne].
      * rewrite IH. split; intros [rest H]; exists rest.
        -- by rewrite H.
        -- by injection H.
      * split; [discriminate|]. intros [rest H]. injection H as Ha _.
        contradiction.
Qed.

Lemma includes_spec (s t : string) :
  includes s t = true ↔ ∃ before after, s = before +:+ t +:+ after.
Proof.
  induction s as [|a s IH].
  - simpl. rewrite orb_false_r, startsWith_spec. split.
    + intros [rest H]. by exists "", rest.
    + intros (before & after & H). destruct before; simpl in H.
      * by exists after.
      * discriminate H.
  - cbn [includes]. rewrite orb_true_iff, startsWith_spec, IH. split.
    + intros [[rest H] | (before & after & H)].
      * by exists "", rest.
      * exists (String a before), after. simpl. by rewrite H.
    + intros (before & after & H). destruct before as [|c before]; simpl in H.
      * left. by exists after.
      * right. injection H as _ H. by exists before, after.
Qed.

(** * The values of the store *)

Lemma values_stored (s : State) (p : Patient.t) :
  p ∈ (map_to_list (patientStorage s)).*2 ↔ stored s p.
Proof.
  unfold stored. rewrite list_elem_of_fmap. split.
  - intros ([k v] & -> & H). exists k. by apply elem_of_map_to_list.
  - intros [k H]. exists (k, p). split; [reflexivity|].
    by apply elem_of_map_to_list.
Qed.

(** * The effect of a call on the store *)

Lemma exec_other_keys (c : Call) (s : State) (key : string) :
  target c ≠ Some key →
  patientStorage (exec c s) !! key = patientStorage s !! key.
Proof.
  intros Hkey. destruct c; run_exec; try reflexivity;
    (rewrite lookup_insert_ne by congruence)
    || (rewrite lookup_delete_ne by congruence);
    reflexivity.
Qed.

Lemma exec_query (c : Call) (s : State) :
  is_query c = true → patientStorage (exec c s) = patientStorage s.
Proof. intros Hq. destruct c; try discriminate Hq; run_exec; reflexivity. Qed.

(** ** Invariants *)

Lemma exec_admission_invariant (c : Call) (s : State) :
  admission_invariant s → admission_invariant (exec c s).
Proof.
  unfold admission_invariant. intros Hinv.
  destruct c; run_exec; try assumption;
    try (apply map_Forall_delete; assumption);
    (apply map_Forall_insert_2; [|assumption]);
    try match goal with
      | H : patientStorage s !! _ = Some _ |- _ =>
          apply (map_Forall_lookup_1 _ _ _ _ Hinv) in H
      end;
    unfold admitted_has_time in *; simpl; eauto; try discriminate.
Qed.

Lemma exec_keys_invariant (c : Call) (s : State) :
  generated c → keys_invariant s → keys_invariant (exec c s).
Proof.
  unfold keys_invariant. intros Hgen Hinv.
  destruct c; run_exec; try assumption;
    try (apply map_Forall_delete; assumption);
    (apply map_Forall_insert_2; [|assumption]);
    try match goal with
      | H : patientStorage s !! _ = Some _ |- _ =>
          apply (map_Forall_lookup_1 _ _ _ _ Hinv) in H
      end;
    simpl in *; intuition.
Qed.

Lemma reachable_keys (s : State) : reachable s → keys_invariant s.
Proof.
  induction 1 as [|c s _ IH Hgen].
  - apply map_Forall_empty.
  - by apply exec_keys_invariant.
Qed.

(** In a reachable state a patient sits under its own id, which is not the
    empty string. *)
Lemma reachable_stored_key (s : State) (key : string) (p : Patient.t) :
  reachable s → patientStorage s !! key = Some p →
  Patient.id p = key ∧ key ≠ "".
Proof.
  intros Hs Hp. apply reachable_keys in Hs.
  destruct (map_Forall_lookup_1 _ _ _ _ Hs Hp) as [Hshape Hid].
  split; [exact Hid | by apply isValidUUID_nonempty].
Qed.

(** * Text: UTF-8 *)

Lemma second_of_three_spec (n0 n1 : N) :
  second_of_three n0 n1 = true ↔
  (n0 = 224 ∧ 160 ≤ n1 ≤ 191 ∨ n0 = 237 ∧ 128 ≤ n1 ≤ 159
   ∨ n0 ≠ 224 ∧ n0 ≠ 237 ∧ 128 ≤ n1 ≤ 191)%N.
Proof.
  unfold second_of_three, is_continuation.
  destruct (N.eqb_spec n0 224); [|destruct (N.eqb_spec n0 237)];
    rewrite andb_true_iff, !N.leb_le; lia.
Qed.

Lemma second_of_four_spec (n0 n1 : N) :
  second_of_four n0 n1 = true ↔
  (n0 = 240 ∧ 144 ≤ n1 ≤ 191 ∨ n0 = 244 ∧ 128 ≤ n1 ≤ 143
   ∨ n0 ≠ 240 ∧ n0 ≠ 244 ∧ 128 ≤ n1 ≤ 191)%N.
Proof.
  unfold second_of_four, is_continuation.
  destruct (N.eqb_spec n0 240); [|destruct (N.eqb_spec n0 244)];
    rewrite andb_true_iff, !N.leb_le; lia.
Qed.

Lemma is_continuation_spec (n : N) :
  is_continuation n = true ↔ (128 ≤ n ≤ 191)%N.
Proof. unfold is_continuation. rewrite andb_true_iff, !N.leb_le. lia. Qed.

Lemma is_scalar_spec (c : N) :
  is_scalar c = true ↔ (c < 55296 ∨ 57344 ≤ c < 1114112)%N.
Proof.
  unfold is_scalar.
  rewrite orb_true_iff, andb_true_iff, !N.ltb_lt, N.leb_le. lia.
Qed.

(** ** Decoding one character *)

Lemma decode_one (b0 : ascii) (s : string) :
  (N_of_ascii b0 < 128)%N →
  decode (String b0 s) = option_map (cons (N_of_ascii b0)) (decode s).
Proof. intros H0. cbn [decode]. by settle_tests. Qed.

Lemma decode_two (b0 b1 : ascii) (s : string) :
  (194 ≤ N_of_ascii b0 ≤ 223)%N → (128 ≤ N_of_ascii b1 ≤ 191)%N →
  decode (String b0 (String b1 s))
  = option_map
      (cons ((N_of_ascii b0 - 192) * 64 + (N_of_ascii b1 - 128))%N)
      (decode s).
Proof.
  intros H0 H1. apply is_continuation_spec in H1. cbn [decode].
  settle_tests. rewrite H1. reflexivity.
Qed.

Lemma decode_three (b0 b1 b2 : ascii) (s : string) :
  (224 ≤ N_of_ascii b0 ≤ 239)%N →
  second_of_three (N_of_ascii b0) (N_of_ascii b1) = true →
  (128 ≤ N_of_ascii b2 ≤ 191)%N →
  decode (String b0 (String b1 (String b2 s)))
  = option_map
      (cons ((N_of_ascii b0 - 224) * 4096 + (N_of_ascii b1 - 128) * 64
             + (N_of_ascii b2 - 128))%N)
      (decode s).
Proof.
  intros H0 H1 H2. apply is_continuation_spec in H2. cbn [decode].
  settle_tests. rewrite H1, H2. reflexivity.
Qed.

Lemma decode_four (b0 b1 b2 b3 : ascii) (s : string) :
  (240 ≤ N_of_ascii b0 ≤ 244)%N →
  second_of_four (N_of_ascii b0) (N_of_ascii b1) = true →
  (128 ≤ N_of_ascii b2 ≤ 191)%N → (128 ≤ N_of_ascii b3 ≤ 191)%N →
  decode (String b0 (String b1 (String b2 (String b3 s))))
  = option_map
      (cons ((N_of_ascii b0 - 240) * 262144 + (N_of_ascii b1 - 128) * 4096
             + (N_of_ascii b2 - 128) * 64 + (N_of_ascii b3 - 128))%N)
      (decode s).
Proof.
  intros H0 H1 H2 H3.
  apply is_continuation_spec in H2. apply is_continuation_spec in H3.
  cbn [decode]. settle_tests. rewrite H1, H2, H3. reflexivity.
Qed.

(** ** Encoding and decoding *)

Lemma byte_of_value (n : N) : (n < 256)%N → N_of_ascii (ascii_of_N n) = n.
Proof. apply N_ascii_embedding. Qed.

Lemma value_of_byte (n : N) (b : ascii) :
  n = N_of_ascii b → ascii_of_N n = b.
Proof. intros ->. apply ascii_N_embedding. Qed.

(** Decoding reads back the character that was encoded. *)
Lemma decode_encode_onto (c : N) (rest : string) :
  is_scalar c = true →
  decode (encode_onto c rest) = option_map (cons c) (decode rest).
Proof.
  intros Hc. apply is_scalar_spec in Hc. unfold encode_onto.
  destruct (N.ltb_spec c 128) as [H1|H1];
    [|destruct (N.ltb_spec c 2048) as [H2|H2];
      [|destruct (N.ltb_spec c 65536) as [H3|H3]]].
  - rewrite decode_one; rewrite byte_of_value by lia; [reflexivity | lia].
  - rewrite decode_two; rewrite !byte_of_value by div_lia;
      [do 2 f_equal | ..]; div_lia.
  - rewrite decode_three; rewrite ?byte_of_value by div_lia;
      [do 2 f_equal; div_lia | div_lia | | div_lia].
    apply second_of_three_spec. div_lia.
  - rewrite decode_four; rewrite ?byte_of_value by div_lia;
      [do 2 f_equal; div_lia | div_lia | | div_lia | div_lia].
    apply second_of_four_spec. div_lia.
Qed.

Lemma decode_encode (l : list N) :
  forallb is_scalar l = true → decode (encode l) = Some l.
Proof.
  induction l as [|c l IH]; [reflexivity|]. cbn [forallb].
  intros [Hc Hl]%andb_true_iff. cbn [encode foldr].
  rewrite decode_encode_onto by exact Hc.
  fold (encode l). by rewrite IH.
Qed.

Lemma length_encode_onto (c : N) (rest : string) :
  (String.length rest < String.length (encode_onto c rest))%nat.
Proof.
  unfold encode_onto.
  destruct (c <? 128)%N; [|destruct (c <? 2048)%N; [|destruct (c <? 65536)%N]];
    simpl; lia.
Qed.

(** A string that decodes is empty, or is the encoding of a scalar value
    followed by a string that decodes. *)
Lemma decode_inv (s : string) (l : list N) :
  decode s = Some l →
  s = "" ∧ l = []
  ∨ ∃ c rest l',
      is_scalar c = true ∧ s = encode_onto c rest
      ∧ decode rest = Some l' ∧ l = c :: l'.
Proof.
  destruct s as [|b0 s1]; [intros [= <-]; by left|]. intros Hs. right.
  pose proof (N_ascii_bounded b0) as B0. cbn [decode] in Hs.
  destruct (N.ltb_spec (N_of_ascii b0) 128) as [H0|H0].
  { destruct (decode s1) as [l'|] eqn:Hrest; [|discriminate Hs].
    injection Hs as <-.
    exists (N_of_ascii b0), s1, l'. split; [apply is_scalar_spec; lia|].
    split; [|by split]. unfold encode_onto. settle_tests.
    by rewrite ascii_N_embedding. }
  destruct s1 as [|b1 s2]; [discriminate Hs|].
  pose proof (N_ascii_bounded b1) as B1.
  destruct ((194 <=? N_of_ascii b0)%N && (N_of_ascii b0 <=? 223)%N) eqn:H2.
  { destruct (is_continuation (N_of_ascii b1)) eqn:C1; [|discriminate Hs].
    apply is_continuation_spec in C1. reflect_tests.
    destruct (decode s2) as [l'|] eqn:Hrest; [|discriminate Hs].
    injection Hs as <-.
    exists ((N_of_ascii b0 - 192) * 64 + (N_of_ascii b1 - 128))%N, s2, l'. split; [apply is_scalar_spec; lia|].
    split; [|by split]. unfold encode_onto. settle_tests.
    rewrite (value_of_byte _ b0) by div_lia.
    rewrite (value_of_byte _ b1) by div_lia. reflexivity. }
  destruct s2 as [|b2 s3]; [discriminate Hs|].
  pose proof (N_ascii_bounded b2) as B2.
  destruct ((224 <=? N_of_ascii b0)%N && (N_of_ascii b0 <=? 239)%N) eqn:H3.
  { destruct (second_of_three (N_of_ascii b0) (N_of_ascii b1)) eqn:C1;
      [|discriminate Hs].
    destruct (is_continuation (N_of_ascii b2)) eqn:C2; [|discriminate Hs].
    cbn [andb] in Hs.
    apply second_of_three_spec in C1. apply is_continuation_spec in C2.
    reflect_tests.
    destruct (decode s3) as [l'|] eqn:Hrest; [|discriminate Hs].
    injection Hs as <-.
    exists ((N_of_ascii b0 - 224) * 4096 + (N_of_ascii b1 - 128) * 64
            + (N_of_ascii b2 - 128))%N, s3, l'. split; [apply is_scalar_spec; lia|].
    split; [|by split]. unfold encode_onto. settle_tests.
    rewrite (value_of_byte _ b0) by div_lia.
    rewrite (value_of_byte _ b1) by div_lia.
    rewrite (value_of_byte _ b2) by div_lia. reflexivity. }
  destruct s3 as [|b3 s4]; [discriminate Hs|].
  pose proof (N_ascii_bounded b3) as B3.
  destruct ((240 <=? N_of_ascii b0)%N && (N_of_ascii b0 <=? 244)%N) eqn:H4;
    [|discriminate Hs].
  destruct (second_of_four (N_of_ascii b0) (N_of_ascii b1)) eqn:C1;
    [|discriminate Hs].
  destruct (is_continuation (N_of_ascii b2)) eqn:C2; [|discriminate Hs].
  destruct (is_continuation (N_of_ascii b3)) eqn:C3; [|discriminate Hs].
  cbn [andb] in Hs.
  apply second_of_four_spec in C1.
  apply is_continuation_spec in C2. apply is_continuation_spec in C3.
  reflect_tests.
  destruct (decode s4) as [l'|] eqn:Hrest; [|discriminate Hs].
    injection Hs as <-.
  exists ((N_of_ascii b0 - 240) * 262144 + (N_of_ascii b1 - 128) * 4096
          + (N_of_ascii b2 - 128) * 64 + (N_of_ascii b3 - 128))%N, s4, l'. split; [apply is_scalar_spec; lia|].
  split; [|by split]. unfold encode_onto. settle_tests.
  rewrite (value_of_byte _ b0) by div_lia.
  rewrite (value_of_byte _ b1) by div_lia.
  rewrite (value_of_byte _ b2) by div_lia.
  rewrite (value_of_byte _ b3) by div_lia. reflexivity.
Qed.

(** What decodes is the encoding of scalar values. *)
Lemma decode_sound (s : string) (l : list N) :
  decode s = Some l → encode l = s ∧ forallb is_scalar l = true.
Proof.
  remember (String.length s) as n eqn:Hn. revert s l Hn.
  induction (lt_wf n) as [n _ IH]. intros s l -> Hs.
  apply decode_inv in Hs as [[-> ->]|(c & rest & l' & Hc & -> & Hrest & ->)];
    [by split|].
  destruct (IH _ (length_encode_onto c rest) rest l' eq_refl Hrest)
    as [<- Hl'].
  split; [reflexivity|]. cbn [forallb]. by rewrite Hc, Hl'.
Qed.

(** * Lower-casing *)

Lemma assoc_In (c d : N) (l : list (N * N)) :
  assoc c l = Some d → In (c, d) l.
Proof.
  induction l as [|[from to] l IH]; [discriminate|]. cbn [assoc].
  destruct (N.eqb_spec c from) as [->|_].
  - intros [= ->]. by left.
  - intros H. right. by apply IH.
Qed.

(** Every lower-case mapping of the table gives a scalar value that is not
    mapped again, and takes no character into or out of those a UUID is
    made of. *)
Lemma lower_pairs_checked :
  forallb (λ '(c, d), is_scalar d && settled d
                      && Bool.eqb (uuid_point d) (uuid_point c))
          lower_pairs = true.
Proof. vm_compute. reflexivity. Qed.

Lemma lower_pair (c d : N) :
  assoc c lower_pairs = Some d →
  is_scalar d = true ∧ settled d = true ∧ uuid_point d = uuid_point c.
Proof.
  intros H. apply assoc_In in H.
  pose proof (proj1 (forallb_forall _ _) lower_pairs_checked _ H) as Hcheck.
  cbn beta iota in Hcheck.
  apply andb_true_iff in Hcheck as [[Hs Hd]%andb_true_iff Hu].
  apply Bool.eqb_prop in Hu. by repeat split.
Qed.

Lemma lower_point_scalar (c : N) :
  is_scalar c = true → forallb is_scalar (lower_point c) = true.
Proof.
  intros Hc. unfold lower_point.
  destruct (c =? 304)%N; [reflexivity|].
  destruct (assoc c lower_pairs) as [d|] eqn:Hd; cbn [forallb].
  - apply lower_pair in Hd as (-> & _). reflexivity.
  - by rewrite Hc.
Qed.

Lemma lower_point_settled (c : N) :
  c ≠ 931%N → forallb settled (lower_point c) = true.
Proof.
  intros Hc. unfold lower_point.
  destruct (N.eqb_spec c 304) as [->|H304]; [by vm_compute|].
  destruct (assoc c lower_pairs) as [d|] eqn:Hd; cbn [forallb].
  - apply lower_pair in Hd as (_ & -> & _). reflexivity.
  - unfold settled. rewrite Hd. settle_tests. reflexivity.
Qed.

Lemma lower_point_uuid (c : N) :
  forallb uuid_point (lower_point c) = uuid_point c.
Proof.
  unfold lower_point.
  destruct (N.eqb_spec c 304) as [->|H304]; [by vm_compute|].
  destruct (assoc c lower_pairs) as [d|] eqn:Hd; cbn [forallb].
  - apply lower_pair in Hd as (_ & _ & ->). apply andb_true_r.
  - apply andb_true_r.
Qed.

Lemma settled_fixed (c : N) :
  settled c = true → c ≠ 931%N ∧ lower_point c = [c].
Proof.
  unfold settled, lower_point. intros H.
  apply andb_true_iff in H as [[H931 H304]%andb_true_iff Hc].
  apply negb_true_iff in H931, H304. rewrite H304.
  apply N.eqb_neq in H931. split; [exact H931|].
  by destruct (assoc c lower_pairs).
Qed.

(** ** Lower-casing a text *)

Lemma lower_points_scalar (after_cased : bool) (l : list N) :
  forallb is_scalar l = true →
  forallb is_scalar (lower_points after_cased l) = true.
Proof.
  revert after_cased. induction l as [|c l IH]; intros st; [reflexivity|].
  cbn [forallb lower_points]. intros [Hc Hl]%andb_true_iff.
  rewrite forallb_app, IH by exact Hl. rewrite andb_true_r.
  destruct (c =? 931)%N; [by destruct (st && _)|].
  by apply lower_point_scalar.
Qed.

Lemma lower_points_settled (after_cased : bool) (l : list N) :
  forallb settled (lower_points after_cased l) = true.
Proof.
  revert after_cased. induction l as [|c l IH]; intros st; [reflexivity|].
  cbn [lower_points]. rewrite forallb_app, IH, andb_true_r.
  destruct (N.eqb_spec c 931) as [->|Hc].
  - destruct (st && _); by vm_compute.
  - by apply lower_point_settled.
Qed.

Lemma lower_points_fixed (after_cased : bool) (l : list N) :
  forallb settled l = true → lower_points after_cased l = l.
Proof.
  revert after_cased. induction l as [|c l IH]; intros st; [reflexivity|].
  cbn [forallb lower_points]. intros [Hc Hl]%andb_true_iff.
  apply settled_fixed in Hc as [Hc ->]. apply N.eqb_neq in Hc.
  rewrite Hc, IH by exact Hl. reflexivity.
Qed.

Lemma lower_points_uuid (after_cased : bool) (l : list N) :
  forallb uuid_point (lower_points after_cased l) = forallb uuid_point l.
Proof.
  revert after_cased. induction l as [|c l IH]; intros st; [reflexivity|].
  cbn [forallb lower_points]. rewrite forallb_app, IH. f_equal.
  destruct (N.eqb_spec c 931) as [->|Hc].
  - destruct (st && _); by vm_compute.
  - apply lower_point_uuid.
Qed.

(** Lower-casing twice is lower-casing once. *)
Lemma toLowerCase_idempotent (s : string) :
  toLowerCase (toLowerCase s) = toLowerCase s.
Proof.
  unfold toLowerCase at 2 3.
  destruct (decode s) as [l|] eqn:Hs.
  - apply decode_sound in Hs as [_ Hl]. unfold toLowerCase.
    rewrite decode_encode by (by apply lower_points_scalar).
    by rewrite lower_points_fixed by apply lower_points_settled.
  - unfold toLowerCase. by rewrite Hs.
Qed.

(** ** ASCII text *)

Lemma lower_point_letter (a : ascii) :
  (N_of_ascii a <? 128)%N = true →
  lower_point (N_of_ascii a) = [N_of_ascii (lower_letter a)]
  ∧ (N_of_ascii (lower_letter a) <? 128)%N = true.
Proof.
  destruct a as [[] [] [] [] [] [] [] []]; intros H;
    vm_compute in H; try discriminate H; by vm_compute.
Qed.

(** On ASCII text, lower-casing turns each capital letter into its small
    letter and leaves every other character. *)
Lemma ascii_lowered (s : string) :
  is_ascii s = true →
  ∃ l, decode s = Some l
       ∧ ∀ after_cased, encode (lower_points after_cased l) = lower_letters s.
Proof.
  induction s as [|a s IH]; [by exists []|]. cbn [is_ascii].
  intros [Ha Hs]%andb_true_iff. destruct (IH Hs) as (l & Hl & Hlow).
  exists (N_of_ascii a :: l). split.
  - rewrite decode_one by (by apply N.ltb_lt). by rewrite Hl.
  - intros st. cbn [lower_points lower_letters].
    destruct (lower_point_letter a Ha) as [-> Hlow_a].
    pose proof Ha as Ha'. apply N.ltb_lt in Ha'.
    settle_tests. cbn [app encode foldr]. fold (encode (lower_points
      (if case_ignorable (N_of_ascii a) then st else cased (N_of_ascii a))
      l)).
    rewrite Hlow. unfold encode_onto. rewrite Hlow_a.
    by rewrite ascii_N_embedding.
Qed.

Lemma toLowerCase_ascii (s : string) :
  is_ascii s = true → toLowerCase s = lower_letters s.
Proof.
  intros Hs. destruct (ascii_lowered s Hs) as (l & Hl & Hlow).
  unfold toLowerCase. by rewrite Hl, Hlow.
Qed.

(** * Letters of ASCII text *)

Lemma append_cons (x : ascii) (a b : string) :
  String x a +:+ b = String x (a +:+ b).
Proof. reflexivity. Qed.

Lemma append_assoc (a b c : string) : (a +:+ b) +:+ c = a +:+ b +:+ c.
Proof.
  induction a as [|x a IH]; [reflexivity|]. by rewrite !append_cons, IH.
Qed.

Lemma append_empty_r (a : string) : a +:+ "" = a.
Proof.
  induction a as [|x a IH]; [reflexivity|]. by rewrite append_cons, IH.
Qed.

Lemma includes_trans (a b c : string) :
  includes a b = true → includes b c = true → includes a c = true.
Proof.
  rewrite !includes_spec. intros (b1 & a1 & ->) (b2 & a2 & ->).
  exists (b1 +:+ b2), (a2 +:+ a1). by rewrite !append_assoc.
Qed.

Lemma small_of_value (a : ascii) :
  is_capital a = true → N_of_ascii (small_of a) = (N_of_ascii a + 32)%N.
Proof.
  unfold is_capital, small_of. intros H. reflect_tests.
  apply byte_of_value. lia.
Qed.

Lemma small_not_capital (a : ascii) :
  is_capital a = true → is_capital (small_of a) = false.
Proof.
  intros H. pose proof (small_of_value a H) as Hv.
  unfold is_capital in *. reflect_tests. rewrite Hv. by settle_tests.
Qed.

Lemma small_of_inj (a b : ascii) :
  is_capital a = true → is_capital b = true →
  small_of a = small_of b → a = b.
Proof.
  intros Ha Hb H. apply (f_equal N_of_ascii) in H.
  rewrite !small_of_value in H by assumption.
  rewrite <- (ascii_N_embedding a), <- (ascii_N_embedding b).
  f_equal. lia.
Qed.

(** Two characters are the same letter exactly when they lower to the same
    character. *)
Lemma same_letter_lower (a b : ascii) :
  same_letter a b ↔ lower_letter a = lower_letter b.
Proof.
  unfold same_letter, lower_letter. split.
  - intros [->|[[Ha ->]|[Hb ->]]]; [reflexivity| |].
    + by rewrite Ha, small_not_capital.
    + by rewrite Hb, small_not_capital.
  - destruct (is_capital a) eqn:Ha, (is_capital b) eqn:Hb; intros H.
    + left. by apply small_of_inj.
    + right. left. by split.
    + right. right. by split.
    + by left.
Qed.

Lemma same_letters_lower (s t : string) :
  same_letters s t ↔ lower_letters s = lower_letters t.
Proof.
  split.
  - induction 1 as [|a b s t Hab _ IH]; [reflexivity|].
    cbn [lower_letters]. apply same_letter_lower in Hab.
    by rewrite Hab, IH.
  - revert t. induction s as [|a s IH]; intros [|b t] H;
      cbn [lower_letters] in H; try discriminate H.
    + constructor.
    + injection H as Hab Hst. constructor.
      * by apply same_letter_lower.
      * by apply IH.
Qed.

Lemma lower_letters_app (a b : string) :
  lower_letters (a +:+ b) = lower_letters a +:+ lower_letters b.
Proof.
  induction a as [|x a IH]; [reflexivity|].
  rewrite append_cons. cbn [lower_letters]. by rewrite IH, append_cons.
Qed.

(** A split of the lower-cased text comes from a split of the text. *)
Lemma lower_letters_split (s a b : string) :
  lower_letters s = a +:+ b →
  ∃ a' b', s = a' +:+ b' ∧ lower_letters a' = a ∧ lower_letters b' = b.
Proof.
  revert s. induction a as [|x a IH]; intros s H.
  - by exists "", s.
  - rewrite append_cons in H.
    destruct s as [|y s]; cbn [lower_letters] in H; [discriminate H|].
    injection H as Hx Hs. destruct (IH s Hs) as (a' & b' & -> & Ha & Hb).
    exists (String y a'), b'. cbn [lower_letters].
    by rewrite Hx, Ha, append_cons.
Qed.

(** Containment of the lower-cased texts is containment with the case of
    the letters ignored. *)
Lemma includes_lower_letters (name q : string) :
  includes (lower_letters name) (lower_letters q) = true
  ↔ occurs_ignoring_case name q.
Proof.
  rewrite includes_spec. unfold occurs_ignoring_case. split.
  - intros (before & after & H).
    apply lower_letters_split in H as (before' & rest & -> & _ & Hrest).
    apply lower_letters_split in Hrest as (part & after' & -> & Hpart & _).
    exists before', part, after'. split; [reflexivity|].
    by apply same_letters_lower.
  - intros (before & part & after & -> & Hpart).
    apply same_letters_lower in Hpart.
    exists (lower_letters before), (lower_letters after).
    by rewrite !lower_letters_app, Hpart.
Qed.

(** * The characters of a UUID *)

Lemma uuid_character_ascii (a : ascii) :
  uuid_character a = true → (N_of_ascii a <? 128)%N = true.
Proof.
  destruct a as [[] [] [] [] [] [] [] []]; intros H;
    vm_compute in H; try discriminate H; by vm_compute.
Qed.

Lemma uuid_characters_ascii (s : string) :
  uuid_characters s = true → is_ascii s = true.
Proof.
  induction s as [|a s IH]; [reflexivity|]. cbn [uuid_characters is_ascii].
  intros [Ha Hs]%andb_true_iff.
  by rewrite (uuid_character_ascii a Ha), IH.
Qed.

Lemma uuid_characters_encode_onto (c : N) (rest : string) :
  is_scalar c = true →
  uuid_characters (encode_onto c rest) = uuid_point c && uuid_characters rest.
Proof.
  intros Hc. apply is_scalar_spec in Hc. unfold encode_onto, uuid_point.
  destruct (N.ltb_spec c 128) as [H1|H1]; [reflexivity|].
  cbn [andb].
  assert (∀ n tail, (128 ≤ n < 256)%N →
            uuid_characters (String (ascii_of_N n) tail) = false) as Hhigh.
  { intros n tail Hn. cbn [uuid_characters].
    destruct (uuid_character (ascii_of_N n)) eqn:Hu; [|reflexivity].
    apply uuid_character_ascii in Hu. rewrite byte_of_value in Hu by lia.
    reflect_tests. lia. }
  destruct (c <? 2048)%N eqn:H2; [|destruct (c <? 65536)%N eqn:H3];
    reflect_tests; apply Hhigh; div_lia.
Qed.

Lemma uuid_characters_encode (l : list N) :
  forallb is_scalar l = true →
  uuid_characters (encode l) = forallb uuid_point l.
Proof.
  induction l as [|c l IH]; [reflexivity|]. cbn [forallb encode foldr].
  intros [Hc Hl]%andb_true_iff. fold (encode l).
  by rewrite uuid_characters_encode_onto, IH.
Qed.

(** Lower-casing takes no character into or out of those a UUID is made
    of. *)
Lemma uuid_characters_lower (s : string) :
  uuid_characters (toLowerCase s) = uuid_characters s.
Proof.
  unfold toLowerCase. destruct (decode s) as [l|] eqn:Hs; [|reflexivity].
  apply decode_sound in Hs as [<- Hl].
  rewrite !uuid_characters_encode by (by try apply lower_points_scalar).
  apply lower_points_uuid.
Qed.

Lemma hex_digits_characters (n : nat) (s rest : string) :
  hex_digits n s = Some rest → uuid_characters rest = true →
  uuid_characters s = true.
Proof.
  revert s. induction n as [|n IH]; intros s; cbn [hex_digits].
  - by intros [= ->].
  - destruct s as [|c s]; [discriminate|].
    destruct (hex_digit c) eqn:Hc; [|discriminate].
    intros H Hrest. cbn [uuid_characters]. unfold uuid_character.
    rewrite Hc. by apply IH.
Qed.

Lemma hyphen_characters (s rest : string) :
  hyphen s = Some rest → uuid_characters rest = true →
  uuid_characters s = true.
Proof.
  destruct s as [|c s]; [discriminate|]. cbn [hyphen].
  destruct (Ascii.eqb c "-") eqn:Hc; [|discriminate].
  intros [= ->] Hrest. cbn [uuid_characters]. unfold uuid_character.
  by rewrite Hc, orb_true_r.
Qed.

Lemma hex_group_characters (s rest : string) :
  hex_group s = Some rest → uuid_characters rest = true →
  uuid_characters s = true.
Proof.
  unfold hex_group. intros H Hrest.
  destruct (hex_digits 4 s) as [mid|] eqn:Hmid; [|discriminate H].
  cbn [followed_by] in H.
  eapply hex_digits_characters; [exact Hmid|].
  by eapply hyphen_characters.
Qed.

(** A string of the UUID shape holds hexadecimal digits and hyphens only. *)
Lemma isValidUUID_characters (id : string) :
  isValidUUID id = true → uuid_characters id = true.
Proof.
  unfold isValidUUID.
  destruct (hex_digits 8 id) as [r1|] eqn:H1; [|discriminate].
  cbn [followed_by].
  destruct (hyphen r1) as [r2|] eqn:H2; [|discriminate]. cbn [followed_by].
  destruct (hex_group r2) as [r3|] eqn:H3; [|discriminate].
  cbn [followed_by].
  destruct (hex_group r3) as [r4|] eqn:H4; [|discriminate].
  cbn [followed_by].
  destruct (hex_group r4) as [r5|] eqn:H5; [|discriminate].
  cbn [followed_by].
  destruct (hex_digits 12 r5) as [[|x r6]|] eqn:H6; try discriminate.
  intros _.
  eapply hex_digits_characters; [exact H1|].
  eapply hyphen_characters; [exact H2|].
  eapply hex_group_characters; [exact H3|].
  eapply hex_group_characters; [exact H4|].
  eapply hex_group_characters; [exact H5|].
  by eapply hex_digits_characters.
Qed.

(** * The sample stores *)

Lemma with_ann_reachable : reachable with_ann.
Proof. apply reachable_exec; [apply reachable_init | reflexivity]. Qed.

Lemma with_records_reachable : reachable with_records.
Proof.
  do 3 (apply reachable_exec; [|exact I]). apply with_ann_reachable.
Qed.

Lemma with_unnamed_record_reachable : reachable with_unnamed_record.
Proof. apply reachable_exec; [apply with_ann_reachable | exact I]. Qed.

Lemma with_ann_admitted_reachable : reachable with_ann_admitted.
Proof. apply reachable_exec; [apply with_ann_reachable | exact I]. Qed.

(** * Deleting a patient *)

(** C1. For an id of the UUID shape [deletePatient] returns [Ok] of what
    [patientStorage.remove] returned, whichever it is: [Ok (Some p)], with
    the entry removed, when the id is a key, and [Ok None] when it is not.
    The "does not exist" error is never returned. *)
Theorem deletePatient_is_Ok_of_removed (id : string) (s : State) :
  isValidUUID id = true →
  (patientStorage s !! id = None → (deletePatient id s).1 = Ok None)
  ∧ (∀ p, patientStorage s !! id = Some p →
       (deletePatient id s).1 = Ok (Some p)
       ∧ patientStorage (deletePatient id s).2 !! id = None)
  ∧ ∀ message, (deletePatient id s).1 ≠ Err message.
Proof.
  intros Hid. rewrite (deletePatient_valid id s Hid). simpl.
  split; [|split].
  - by intros ->.
  - intros p ->. split; [reflexivity | apply lookup_delete_eq].
  - discriminate.
Qed.

Lemma deletePatient_is_Ok_of_removed_witness :
  isValidUUID uuid_a = true
  ∧ patientStorage init !! uuid_a = None
  ∧ (deletePatient uuid_a init).1 = Ok None.
Proof.
  split; [reflexivity|]. split; [reflexivity|].
  apply (deletePatient_is_Ok_of_removed uuid_a init); reflexivity.
Defined.

(** C2. An id that is not of the UUID shape makes [deletePatient] return
    "Invalid patient ID" with the state as it was, store and list of store
    calls alike.  No other operation looks at the shape: when such an id is
    not empty, each of them takes it to the store, serves it when it is a
    key, and answers that the patient is missing when it is not. *)
Theorem only_deletePatient_checks_shape (id : string) (s : State) :
  isValidUUID id = false →
  deletePatient id s = (Err "Invalid patient ID", s)
  ∧ (id ≠ "" → ∀ p, patientStorage s !! id = Some p →
       (getPatient id s).1 = Ok p
       ∧ (getMedicalRecords id s).1 = Ok (Patient.medicalRecords p)
       ∧ (∀ payload,
            PatientPayload.name payload ≠ "" →
            falsy_number (PatientPayload.age payload) = false →
            PatientPayload.gender payload ≠ "" →
            (updatePatient id payload s).1 = Ok (spread_payload p payload))
       ∧ (∀ r, (addMedicalRecord id r s).1
               = Ok (with_medicalRecords p (Patient.medicalRecords p ++ [r])))
       ∧ (∀ rid newr i,
            rid ≠ "" → first_match rid (Patient.medicalRecords p) i →
            (updateMedicalRecord id rid newr s).1
            = Ok (with_medicalRecords p
                    (<[i := newr]> (Patient.medicalRecords p))))
       ∧ (∀ rid i,
            rid ≠ "" → first_match rid (Patient.medicalRecords p) i →
            (deleteMedicalRecord id rid s).1
            = Ok (with_medicalRecords p
                    (take i (Patient.medicalRecords p)
                       ++ drop (S i) (Patient.medicalRecords p))%list))
       ∧ (∀ now, Patient.isAdmitted p = false →
            ∃ p', (admitPatient now id s).1 = Ok p')
       ∧ (∀ now, Patient.isAdmitted p = true →
            ∃ p', (dischargePatient now id s).1 = Ok p'))
  ∧ (id ≠ "" → patientStorage s !! id = None →
       (getPatient id s).1 = Err ("Patient with id=" +:+ id +:+ " not found")
       ∧ (getMedicalRecords id s).1
         = Err ("Patient with id=" +:+ id +:+ " not found")
       ∧ (∀ payload,
            PatientPayload.name payload ≠ "" →
            falsy_number (PatientPayload.age payload) = false →
            PatientPayload.gender payload ≠ "" →
            (updatePatient id payload s).1
            = Err ("Patient with id=" +:+ id +:+ " does not exist"))
       ∧ (∀ r, (addMedicalRecord id r s).1
               = Err ("Patient with id=" +:+ id +:+ " does not exist"))
       ∧ (∀ rid newr, rid ≠ "" →
            (updateMedicalRecord id rid newr s).1
            = Err ("Patient with id=" +:+ id +:+ " does not exist"))
       ∧ (∀ rid, rid ≠ "" →
            (deleteMedicalRecord id rid s).1
            = Err ("Patient with id=" +:+ id +:+ " does not exist"))
       ∧ (∀ now, (admitPatient now id s).1
                 = Err ("Patient with id=" +:+ id +:+ " not found"))
       ∧ (∀ now, (dischargePatient now id s).1
                 = Err ("Patient with id=" +:+ id +:+ " not found"))).
Proof.
  intros Hshape. split; [|split].
  - unfold deletePatient. rewrite Hshape. reflexivity.
  - intros Hid p Hp. repeat split.
    + by rewrite getPatient_nonempty, Hp.
    + by rewrite getMedicalRecords_nonempty, Hp.
    + intros payload Hn Ha Hg. apply falsy_string_false in Hn, Hg.
      by rewrite (updatePatient_stored id payload s p).
    + intros r. by rewrite (addMedicalRecord_stored id r s p).
    + intros rid newr i Hrid Hi.
      by rewrite (updateMedicalRecord_found id rid newr s p i).
    + intros rid i Hrid Hi.
      by rewrite (deleteMedicalRecord_found id rid s p i).
    + intros now Hadm. rewrite (admitPatient_stored now id s p), Hadm by done.
      by eexists.
    + intros now Hadm.
      rewrite (dischargePatient_stored now id s p), Hadm by done.
      by eexists.
  - intros Hid Hp. repeat split.
    + by rewrite getPatient_nonempty, Hp.
    + by rewrite getMedicalRecords_nonempty, Hp.
    + intros payload Hn Ha Hg. apply falsy_string_false in Hn, Hg.
      by rewrite updatePatient_absent.
    + intros r. by rewrite addMedicalRecord_absent.
    + intros rid newr Hrid. by rewrite updateMedicalRecord_absent.
    + intros rid Hrid. by rewrite deleteMedicalRecord_absent.
    + intros now. by rewrite admitPatient_absent.
    + intros now. by rewrite dischargePatient_absent.
Qed.

Lemma only_deletePatient_checks_shape_witness :
  isValidUUID "p1" = false
  ∧ deletePatient "p1" with_short_key = (Err "Invalid patient ID", with_short_key)
  ∧ (getPatient "p1" with_short_key).1 = Ok bob.
Proof.
  split; [reflexivity|].
  destruct (only_deletePatient_checks_shape "p1" with_short_key eq_refl)
    as [Hdelete [Hothers _]].
  split; [exact Hdelete|].
  apply (Hothers ltac:(discriminate) bob eq_refl).
Defined.

(** * Admission and discharge *)

(** C3. In a reachable store, take a stored patient [p].  If [p] is not
    admitted, [admitPatient(p.id)] succeeds and stores [isAdmitted = true]
    with [admittedAt] present, a second [admitPatient(p.id)] right after it
    returns the "already admitted" error, and [dischargePatient(p.id)]
    returns the "not currently admitted" error.  If [p] is admitted,
    [admitPatient(p.id)] returns the "already admitted" error, and
    [dischargePatient(p.id)] succeeds and stores [isAdmitted = false] with
    [dischargedAt] present. *)
Theorem admission_state_machine (s : State) (key : string) (p : Patient.t)
    (now : nat64) :
  reachable s → patientStorage s !! key = Some p →
  (Patient.isAdmitted p = false →
     (∃ p' s',
        admitPatient now (Patient.id p) s = (Ok p', s')
        ∧ patientStorage s' !! Patient.id p = Some p'
        ∧ Patient.isAdmitted p' = true
        ∧ Patient.admittedAt p' = Some now
        ∧ ∀ later,
            (admitPatient later (Patient.id p) s').1
            = Err ("Patient with id=" +:+ Patient.id p
                     +:+ " is already admitted"))
     ∧ (dischargePatient now (Patient.id p) s).1
       = Err ("Patient with id=" +:+ Patient.id p
                +:+ " is not currently admitted"))
  ∧ (Patient.isAdmitted p = true →
     (admitPatient now (Patient.id p) s).1
     = Err ("Patient with id=" +:+ Patient.id p +:+ " is already admitted")
     ∧ ∃ p' s',
         dischargePatient now (Patient.id p) s = (Ok p', s')
         ∧ patientStorage s' !! Patient.id p = Some p'
         ∧ Patient.isAdmitted p' = false
         ∧ Patient.dischargedAt p' = Some now).
Proof.
  intros Hs Hp. destruct (reachable_stored_key s key p Hs Hp) as [-> Hkey].
  split; intros Hadm.
  - split.
    + rewrite (admitPatient_stored now _ s p Hkey Hp), Hadm.
      eexists _, _. split; [reflexivity|]. simpl.
      split; [apply lookup_insert_eq|]. split; [reflexivity|].
      split; [reflexivity|]. intros later.
      erewrite admitPatient_stored; [|exact Hkey | apply lookup_insert_eq].
      reflexivity.
    + by rewrite (dischargePatient_stored now _ s p Hkey Hp), Hadm.
  - split.
    + by rewrite (admitPatient_stored now _ s p Hkey Hp), Hadm.
    + rewrite (dischargePatient_stored now _ s p Hkey Hp), Hadm.
      eexists _, _. split; [reflexivity|]. simpl.
      split; [apply lookup_insert_eq|]. split; reflexivity.
Qed.

Lemma admission_state_machine_witness :
  patientStorage with_ann !! uuid_a = Some ann_created
  ∧ Patient.isAdmitted ann_created = false
  ∧ (dischargePatient 7%N (Patient.id ann_created) with_ann).1
    = Err ("Patient with id=" +:+ uuid_a +:+ " is not currently admitted").
Proof.
  split; [reflexivity|]. split; [reflexivity|].
  apply (admission_state_machine with_ann uuid_a ann_created 7%N
           with_ann_reachable eq_refl).
  reflexivity.
Defined.

(** C4. In every state reachable from the empty store, every stored patient
    with [isAdmitted = true] has [admittedAt] present; and every call keeps
    this true of any store of which it is true. *)
Theorem admitted_implies_admittedAt :
  (∀ s p, reachable s → stored s p →
     Patient.isAdmitted p = true → is_Some (Patient.admittedAt p))
  ∧ ∀ c s, admission_invariant s → admission_invariant (exec c s).
Proof.
  split; [|apply exec_admission_invariant].
  intros s p Hs [key Hp].
  assert (admission_invariant s) as Hinv.
  { clear key p Hp. induction Hs as [|c s _ IH _].
    - apply map_Forall_empty.
    - by apply exec_admission_invariant. }
  exact (map_Forall_lookup_1 _ _ _ _ Hinv Hp).
Qed.

Lemma admitted_implies_admittedAt_witness :
  is_Some (Patient.admittedAt
             (Patient.mk uuid_a "Ann" thirty "F" (Some 7%N) None true [])).
Proof.
  apply (proj1 admitted_implies_admittedAt with_ann_admitted).
  - exact with_ann_admitted_reachable.
  - exists uuid_a. reflexivity.
  - reflexivity.
Defined.

(** * Creating and updating a patient *)

(** C5. When [addPatient(payload)] succeeds with a patient whose id is [x],
    [getPatient(x)] right after it returns that patient: its id is the
    generated one, it is not admitted, both timestamps are absent, and name,
    age, gender and medical records are the payload's.  ([uuidv4()] does not
    return the empty string.) *)
Theorem getPatient_after_addPatient (uuid : string)
    (payload : PatientPayload.t) (s s' : State) (created : Patient.t) :
  uuid ≠ "" →
  addPatient uuid payload s = (Ok created, s') →
  (getPatient (Patient.id created) s').1 = Ok created
  ∧ Patient.id created = uuid
  ∧ Patient.isAdmitted created = false
  ∧ Patient.admittedAt created = None
  ∧ Patient.dischargedAt created = None
  ∧ Patient.name created = PatientPayload.name payload
  ∧ Patient.age created = PatientPayload.age payload
  ∧ Patient.gender created = PatientPayload.gender payload
  ∧ Patient.medicalRecords created = PatientPayload.medicalRecords payload.
Proof.
  intros Huuid Hadd. unfold addPatient in Hadd.
  destruct (falsy_string (PatientPayload.name payload)
            || falsy_number (PatientPayload.age payload)
            || falsy_string (PatientPayload.gender payload));
    [discriminate Hadd|].
  injection Hadd as <- <-. simpl.
  rewrite getPatient_nonempty by exact Huuid. simpl.
  rewrite lookup_insert_eq. repeat split.
Qed.

Lemma getPatient_after_addPatient_witness :
  (getPatient uuid_a (addPatient uuid_a ann init).2).1 = Ok ann_created.
Proof.
  apply (getPatient_after_addPatient uuid_a ann init
           (addPatient uuid_a ann init).2 ann_created).
  - discriminate.
  - reflexivity.
Defined.



(** * Medical records *)

(** C7, as amended.  In a reachable store, for a stored patient and a record
    id that is not the empty string: when some record has that id,
    [updateMedicalRecord] replaces the first such record and leaves the
    length and every other position as they were, and [deleteMedicalRecord]
    removes the first such record and keeps the others in order; when no
    record has that id, both return the record-not-found error and leave the
    store as it was. *)
Theorem first_match_contract_nonempty_id (s : State) (pid : string)
    (p : Patient.t) (rid : string) (newr : MedicalRecord.t) :
  reachable s → patientStorage s !! pid = Some p → rid ≠ "" →
  first_match_contract s pid p rid newr.
Proof.
  intros Hs Hp Hrid. destruct (reachable_stored_key s pid p Hs Hp) as [_ Hpid].
  split.
  - intros i Hi. pose proof Hi as [[r [Hr _]] _]. apply lookup_lt_Some in Hr.
    split.
    + rewrite (updateMedicalRecord_found pid rid newr s p i) by done.
      eexists _, _. split; [reflexivity|]. simpl.
      split; [apply lookup_insert_eq|]. split; [reflexivity|].
      split; [apply length_insert|].
      split; [by apply list_lookup_insert_eq|].
      intros j Hj. by apply list_lookup_insert_ne.
    + rewrite (deleteMedicalRecord_found pid rid s p i) by done.
      eexists _, _. split; [reflexivity|]. simpl.
      split; [apply lookup_insert_eq | reflexivity].
  - intros Hno. split.
    + rewrite (updateMedicalRecord_missing pid rid newr s p) by done.
      by eexists.
    + rewrite (deleteMedicalRecord_missing pid rid s p) by done.
      by eexists.
Qed.

Lemma first_match_contract_nonempty_id_witness :
  first_match_contract with_records uuid_a
    (with_medicalRecords ann_created [record_x; record_y; record_x'])
    "x" record_z.
Proof.
  apply first_match_contract_nonempty_id.
  - exact with_records_reachable.
  - reflexivity.
  - discriminate.
Defined.

(** C7, as stated, fails for the empty record id: a patient can hold a
    record whose id is the empty string, and the operations turn that id
    down before they look at the records. *)
Lemma first_match_contract_empty_id :
  reachable with_unnamed_record
  ∧ patientStorage with_unnamed_record !! uuid_a
    = Some (with_medicalRecords ann_created [record_unnamed])
  ∧ first_match "" [record_unnamed] 0
  ∧ ¬ first_match_contract with_unnamed_record uuid_a
        (with_medicalRecords ann_created [record_unnamed]) "" record_z.
Proof.
  split; [exact with_unnamed_record_reachable|].
  split; [reflexivity|].
  assert (first_match "" [record_unnamed] 0) as Hfirst.
  { split; [by exists record_unnamed|]. intros j r Hj. lia. }
  split; [exact Hfirst|].
  intros [Hfound _].
  destruct (Hfound 0 Hfirst) as [(p' & s' & Hupd & _) _].
  discriminate Hupd.
Qed.

(** C9. A successful [addMedicalRecord(pid, r)] on a stored patient stores
    the patient with [r] appended to the records it had, and
    [getMedicalRecords(pid)] right after it returns that sequence: the
    previous records, then [r] as the last element. *)
Theorem addMedicalRecord_appends (pid : string) (r : MedicalRecord.t)
    (s s' : State) (p updated : Patient.t) :
  patientStorage s !! pid = Some p →
  addMedicalRecord pid r s = (Ok updated, s') →
  patientStorage s' !! pid = Some updated
  ∧ Patient.medicalRecords updated = (Patient.medicalRecords p ++ [r])%list
  ∧ (getMedicalRecords pid s').1 = Ok (Patient.medicalRecords p ++ [r])%list
  ∧ last (Patient.medicalRecords p ++ [r])%list = Some r.
Proof.
  intros Hp Hadd.
  assert (pid ≠ "") as Hpid.
  { intros ->. discriminate Hadd. }
  rewrite (addMedicalRecord_stored pid r s p Hpid Hp) in Hadd.
  injection Hadd as <- <-. simpl.
  split; [apply lookup_insert_eq|]. split; [reflexivity|].
  split; [|apply last_snoc].
  rewrite getMedicalRecords_nonempty by exact Hpid. simpl.
  by rewrite lookup_insert_eq.
Qed.

Lemma addMedicalRecord_appends_witness :
  (getMedicalRecords uuid_a
     (addMedicalRecord uuid_a record_z with_records).2).1
  = Ok [record_x; record_y; record_x'; record_z].
Proof.
  apply (addMedicalRecord_appends uuid_a record_z with_records
           (addMedicalRecord uuid_a record_z with_records).2
           (with_medicalRecords ann_created [record_x; record_y; record_x'])
           (with_medicalRecords ann_created
              [record_x; record_y; record_x'; record_z])).
  - reflexivity.
  - reflexivity.
Defined.

(** * Searching *)

(** C8, as amended.  [searchPatients(q)] succeeds, and the patients it
    returns are exactly the stored patients whose lower-cased name
    ([name.toLowerCase()]) contains the lower-cased query
    ([q.toLowerCase()]).  When the query and the name are ASCII text, these
    are exactly the stored patients whose name contains [q] with the case of
    the letters ignored.  On the empty store the result is the empty
    list. *)
Theorem searchPatients_lowered_exact (q : string) (s : State) :
  ∃ found,
    searchPatients q s
    = (Ok found, mkState (patientStorage s) (CallValues :: calls s))
    ∧ (∀ p, p ∈ found
            ↔ stored s p
              ∧ includes (toLowerCase (Patient.name p)) (toLowerCase q)
                = true)
    ∧ (is_ascii q = true →
       ∀ p, is_ascii (Patient.name p) = true →
            (p ∈ found
             ↔ stored s p ∧ occurs_ignoring_case (Patient.name p) q))
    ∧ (patientStorage s = ∅ → found = []).
Proof.
  eexists. split; [reflexivity|].
  assert (∀ p,
            p ∈ List.filter
                  (λ patient,
                     includes (toLowerCase (Patient.name patient))
                       (toLowerCase q))
                  (map_to_list (patientStorage s)).*2
            ↔ stored s p
              ∧ includes (toLowerCase (Patient.name p)) (toLowerCase q)
                = true) as Hfound.
  { intros p. rewrite list_elem_of_In, filter_In, <- list_elem_of_In.
    by rewrite values_stored. }
  split; [exact Hfound|]. split.
  - intros Hq p Hname. rewrite Hfound.
    rewrite (toLowerCase_ascii q Hq), (toLowerCase_ascii _ Hname).
    by rewrite includes_lower_letters.
  - intros ->. by rewrite map_to_list_empty.
Qed.

Lemma searchPatients_lowered_exact_witness :
  is_ascii "aNN" = true
  ∧ is_ascii (Patient.name ann_created) = true
  ∧ ∃ found,
      (searchPatients "aNN" with_two).1 = Ok found ∧ ann_created ∈ found.
Proof.
  split; [reflexivity|]. split; [reflexivity|].
  destruct (searchPatients_lowered_exact "aNN" with_two)
    as (found & Hsearch & _ & Hascii & _).
  exists found. split; [by rewrite Hsearch|].
  apply (Hascii eq_refl ann_created eq_refl). split.
  - exists uuid_a. reflexivity.
  - exists "", "Ann", "". split; [reflexivity|].
    constructor; [right; left; by split|].
    constructor; [right; right; by split|].
    constructor; [right; right; by split|].
    constructor.
Defined.

(** C8, as stated, fails on text that is not ASCII.  A capital sigma at the
    end of a word lowers to the final small sigma, a capital sigma on its
    own to the other small sigma: the patient whose name is a capital alpha
    and a capital sigma is not returned for the query that is a capital
    sigma, although the name ends with the query, letter for letter. *)
Lemma searchPatients_misses_final_sigma :
  reachable with_alpha_sigma
  ∧ stored with_alpha_sigma alpha_sigma_created
  ∧ Patient.name alpha_sigma_created = alpha +:+ sigma +:+ ""
  ∧ contains_ignoring_case (Patient.name alpha_sigma_created) sigma
  ∧ (searchPatients sigma with_alpha_sigma).1 = Ok []
  ∧ ¬ (∀ found,
         (searchPatients sigma with_alpha_sigma).1 = Ok found →
         ∀ p, p ∈ found
              ↔ stored with_alpha_sigma p
                ∧ contains_ignoring_case (Patient.name p) sigma).
Proof.
  assert (stored with_alpha_sigma alpha_sigma_created) as Hstored.
  { exists uuid_a. reflexivity. }
  assert (contains_ignoring_case (Patient.name alpha_sigma_created) sigma)
    as Hcontains.
  { exists alpha, sigma, "". by split. }
  assert ((searchPatients sigma with_alpha_sigma).1 = Ok []) as Hsearch.
  { by vm_compute. }
  split; [apply reachable_exec; [apply reachable_init | reflexivity]|].
  split; [exact Hstored|]. split; [reflexivity|].
  split; [exact Hcontains|]. split; [exact Hsearch|].
  intros Hclaim.
  pose proof (proj2 (Hclaim [] Hsearch alpha_sigma_created)
                (conj Hstored Hcontains)) as Hin.
  by apply elem_of_nil in Hin.
Qed.

(** * Frame *)

(** C10. A call leaves the entry under every key other than the patient id
    it operates on as it was, and the four [$query] functions leave the whole
    store as it was. *)
Theorem calls_change_one_entry (c : Call) (s : State) :
  (∀ key, target c ≠ Some key →
     patientStorage (exec c s) !! key = patientStorage s !! key)
  ∧ (is_query c = true → patientStorage (exec c s) = patientStorage s).
Proof.
  split; [intros key; apply exec_other_keys | apply exec_query].
Qed.

Lemma calls_change_one_entry_witness :
  patientStorage (exec (DeletePatient uuid_a) with_two) !! uuid_b
  = patientStorage with_two !! uuid_b
  ∧ patientStorage (exec (SearchPatients "an") with_two)
    = patientStorage with_two.
Proof.
  destruct (calls_change_one_entry (DeletePatient uuid_a) with_two)
    as [Hother _].
  destruct (calls_change_one_entry (SearchPatients "an") with_two)
    as [_ Hquery].
  split; [apply Hother; discriminate | apply Hquery; reflexivity].
Defined.

(** * Further properties of the operations *)

(** ** Failure and validation *)

(** X1. A call that answers [Err] leaves the content of the store as it
    was. *)
Theorem failed_call_keeps_store (c : Call) (s : State) :
  failed c s = true → patientStorage (exec c s) = patientStorage s.
Proof.
  unfold failed. destruct c; simpl; run_op;
    repeat (case_match; simpl); intros Hfailed;
    first [ reflexivity | discriminate Hfailed
          | match goal with
            | H : falsy_Opt ?o = true |- _ => destruct o; discriminate H
            end ].
Qed.

Lemma failed_call_keeps_store_witness :
  failed (AdmitPatient 9%N uuid_a) with_ann_admitted = true
  ∧ patientStorage (exec (AdmitPatient 9%N uuid_a) with_ann_admitted)
    = patientStorage with_ann_admitted.
Proof.
  split; [reflexivity|].
  apply (failed_call_keeps_store (AdmitPatient 9%N uuid_a) with_ann_admitted).
  reflexivity.
Defined.

(** X2. The checks on the arguments come before any use of the store: a
    call whose arguments fail them answers [Err] and leaves the state, store
    calls included, as it was; a call whose arguments pass them makes one or
    two store calls. *)
Theorem validation_precedes_store (c : Call) (s : State) :
  (accepted c = false → exec c s = s ∧ failed c s = true)
  ∧ (accepted c = true →
     ∃ new, calls (exec c s) = (new ++ calls s)%list
            ∧ (1 ≤ length new ≤ 2)%nat).
Proof.
  unfold failed.
  destruct c; cbn [accepted]; unfold complete;
    try match goal with
      | |- context [isValidUUID ?x] => destruct (isValidUUID x) eqn:?
      end;
    simpl; run_op;
    try match goal with H : isValidUUID _ = _ |- _ => rewrite H end; simpl;
    repeat (case_match; simpl); simplify_eq/=;
    (split; [try discriminate; intros _; by split | try discriminate]);
    intros _;
    first [ refine (ex_intro _ [_] (conj eq_refl _)); simpl; lia
          | refine (ex_intro _ [_; _] (conj eq_refl _)); simpl; lia ].
Qed.

Lemma validation_precedes_store_witness :
  accepted (UpdateMedicalRecord uuid_a "" record_z) = false
  ∧ exec (UpdateMedicalRecord uuid_a "" record_z) with_unnamed_record
    = with_unnamed_record.
Proof.
  split; [reflexivity|].
  apply (validation_precedes_store (UpdateMedicalRecord uuid_a "" record_z)
           with_unnamed_record).
  reflexivity.
Defined.

(** X3. Every function that looks a patient up fails for an id that passes
    its checks and is not a key of the store, after one [get] and nothing
    else.  ([addPatient] and [deletePatient] do not look the patient up.) *)
Theorem missing_patient_fails (c : Call) (id : string) (s : State) :
  target c = Some id → accepted c = true →
  patientStorage s !! id = None →
  match c with
  | AddPatient _ _ | DeletePatient _ => True
  | _ =>
      failed c s = true
      ∧ exec c s = mkState (patientStorage s) (CallGet id :: calls s)
  end.
Proof.
  unfold failed. intros Htarget Haccepted Hmissing.
  destruct c; try exact I; simpl in Htarget; simplify_eq/=;
    revert Haccepted; unfold complete; run_op;
    repeat (case_match; simpl); simplify_eq/=; try discriminate;
    by intros _.
Qed.

Lemma missing_patient_fails_witness :
  failed (AddMedicalRecord uuid_b record_x) with_ann = true
  ∧ exec (AddMedicalRecord uuid_b record_x) with_ann
    = mkState (patientStorage with_ann) (CallGet uuid_b :: calls with_ann).
Proof.
  apply (missing_patient_fails (AddMedicalRecord uuid_b record_x) uuid_b
           with_ann); reflexivity.
Defined.

(** X4. After [deletePatient(id)] with an id of the UUID shape,
    [getPatient(id)] answers that the patient is not found, and a second
    [deletePatient(id)] answers [Ok] of an absent patient. *)
Theorem getPatient_after_deletePatient (id : string) (s : State) :
  isValidUUID id = true →
  (getPatient id (deletePatient id s).2).1
  = Err ("Patient with id=" +:+ id +:+ " not found")
  ∧ (deletePatient id (deletePatient id s).2).1 = Ok None.
Proof.
  intros Hid. pose proof (isValidUUID_nonempty id Hid) as Hne.
  rewrite (deletePatient_valid id s Hid). simpl. split.
  - rewrite getPatient_nonempty by exact Hne. simpl.
    by rewrite lookup_delete_eq.
  - rewrite deletePatient_valid by exact Hid. simpl.
    by rewrite lookup_delete_eq.
Qed.

Lemma getPatient_after_deletePatient_witness :
  (getPatient uuid_a (deletePatient uuid_a with_records).2).1
  = Err ("Patient with id=" +:+ uuid_a +:+ " not found").
Proof.
  apply (getPatient_after_deletePatient uuid_a with_records). reflexivity.
Defined.

(** ** Keys and fields *)

(** X5. Only [addPatient] adds a key to the store, and it adds the generated
    id; only [deletePatient] removes one, and it removes its argument; every
    other call leaves the set of keys as it was. *)
Theorem key_set_after_call (c : Call) (s : State) :
  dom (patientStorage (exec c s)) =
    match c with
    | AddPatient uuid payload =>
        if complete payload then {[uuid]} ∪ dom (patientStorage s)
        else dom (patientStorage s)
    | DeletePatient id =>
        if isValidUUID id then dom (patientStorage s) ∖ {[id]}
        else dom (patientStorage s)
    | _ => dom (patientStorage s)
    end.
Proof.
  destruct c; unfold complete; run_exec;
    rewrite ?dom_insert_L, ?dom_delete_L; try reflexivity;
    match goal with
    | H : patientStorage s !! ?k = Some _ |- _ =>
        apply (elem_of_dom_2 (D := gset string)) in H;
        by apply subseteq_union_1_L, singleton_subseteq_l
    end.
Qed.

(** X6. A call changes, in the patient under a key, only the parts its
    function assigns: the id is never changed except by [addPatient]; name,
    age and gender only by [addPatient] and [updatePatient]; the admission
    flag and the two timestamps only by [addPatient], [admitPatient] and
    [dischargePatient]; the medical records only by [addPatient],
    [updatePatient] and the three record functions. *)
Theorem calls_write_their_fields (c : Call) (f : Field) (s : State)
    (key : string) (p p' : Patient.t) :
  patientStorage s !! key = Some p →
  patientStorage (exec c s) !! key = Some p' →
  writes c f = false → same_on f p p'.
Proof.
  intros Hp Hp' Hwrites. revert Hp'.
  destruct c, f; try discriminate Hwrites; clear Hwrites; run_exec;
    intros Hp';
    try (rewrite Hp in Hp'; injection Hp' as <-; simpl; by repeat split);
    match type of Hp' with
    | <[?k := _]> _ !! _ = _ =>
        destruct (decide (k = key)) as [->|Hne];
        [ rewrite lookup_insert_eq in Hp'; simplify_eq/=; by repeat split
        | rewrite lookup_insert_ne in Hp' by exact Hne;
          rewrite Hp in Hp'; injection Hp' as <-; simpl; by repeat split ]
    | delete ?k _ !! _ = _ =>
        destruct (decide (k = key)) as [->|Hne];
        [ rewrite lookup_delete_eq in Hp'; discriminate Hp'
        | rewrite lookup_delete_ne in Hp' by exact Hne;
          rewrite Hp in Hp'; injection Hp' as <-; simpl; by repeat split ]
    end.
Qed.

Lemma calls_write_their_fields_witness :
  same_on TheAdmission
    (Patient.mk uuid_a "Ann" thirty "F" (Some 7%N) None true [])
    (Patient.mk uuid_a "Joanna" thirty "F" (Some 7%N) None true [record_y]).
Proof.
  apply (calls_write_their_fields (UpdatePatient uuid_a joanna) TheAdmission
           with_ann_admitted uuid_a); reflexivity.
Defined.

(** ** What holds of every reachable store *)

Lemma exec_timestamps_invariant (c : Call) (s : State) :
  timestamps_invariant s → timestamps_invariant (exec c s).
Proof.
  unfold timestamps_invariant. intros Hinv.
  destruct c; run_exec; try assumption;
    try (apply map_Forall_delete; assumption);
    (apply map_Forall_insert_2; [|assumption]);
    try match goal with
      | H : patientStorage s !! _ = Some _ |- _ =>
          apply (map_Forall_lookup_1 _ _ _ _ Hinv) in H; destruct H
      end;
    unfold admitted_has_time, discharged_was_admitted in *; simpl;
    split; eauto; try discriminate;
    try (intros [? [=]]; fail);
    intros _;
    match goal with
    | Hadm : _ → is_Some (Patient.admittedAt ?t),
      Hneg : negb (Patient.isAdmitted ?t) = false |- _ =>
        apply Hadm; by destruct (Patient.isAdmitted t)
    end.
Qed.

Lemma ids_of_values (l : list (string * Patient.t)) :
  Forall (λ kp, Patient.id kp.2 = kp.1) l →
  Patient.id <$> l.*2 = l.*1.
Proof.
  induction 1 as [|[k p] l Hkp _ IH]; [reflexivity|].
  rewrite !fmap_cons. f_equal; [exact Hkp | exact IH].
Qed.

(** X7. In a reachable store no two patients have the same id: the list
    [getPatients] returns has pairwise distinct ids, each of the UUID shape,
    and each patient in it is the one stored under its own id. *)
Theorem getPatients_distinct_ids (s : State) :
  reachable s →
  ∃ patients,
    (getPatients s).1 = Ok patients
    ∧ NoDup (Patient.id <$> patients)
    ∧ ∀ p, p ∈ patients →
        isValidUUID (Patient.id p) = true
        ∧ patientStorage s !! Patient.id p = Some p.
Proof.
  intros Hs. apply reachable_keys in Hs. unfold keys_invariant in Hs.
  eexists. split; [reflexivity|]. split.
  - rewrite ids_of_values; [apply NoDup_fst_map_to_list|].
    apply Forall_forall. intros [k p] Hkp.
    apply elem_of_map_to_list in Hkp.
    by destruct (map_Forall_lookup_1 _ _ _ _ Hs Hkp).
  - intros p Hp. apply values_stored in Hp as [k Hk].
    destruct (map_Forall_lookup_1 _ _ _ _ Hs Hk) as [Hshape ->].
    by split.
Qed.

Lemma getPatients_distinct_ids_witness :
  ∃ patients,
    (getPatients with_two).1 = Ok patients
    ∧ NoDup (Patient.id <$> patients)
    ∧ ∀ p, p ∈ patients →
        isValidUUID (Patient.id p) = true
        ∧ patientStorage with_two !! Patient.id p = Some p.
Proof.
  apply (getPatients_distinct_ids with_two).
  apply reachable_exec; [apply with_ann_reachable | reflexivity].
Defined.

(** X8. [getPatients] succeeds with exactly the stored patients, one list
    element per key, and leaves the store as it was, so that asking again
    gives the same list. *)
Theorem getPatients_exact (s : State) :
  ∃ patients,
    getPatients s
    = (Ok patients, mkState (patientStorage s) (CallValues :: calls s))
    ∧ (∀ p, p ∈ patients ↔ stored s p)
    ∧ length patients = size (patientStorage s)
    ∧ (getPatients (getPatients s).2).1 = Ok patients.
Proof.
  eexists. split; [reflexivity|]. split; [|split].
  - intros p. apply values_stored.
  - by rewrite length_fmap, length_map_to_list.
  - reflexivity.
Qed.

(** X9. In a reachable store a patient with a discharge time has an
    admission time: [dischargedAt] is only set on an admitted patient, and
    nothing removes [admittedAt]. *)
Theorem dischargedAt_implies_admittedAt (s : State) (p : Patient.t) :
  reachable s → stored s p →
  is_Some (Patient.dischargedAt p) → is_Some (Patient.admittedAt p).
Proof.
  intros Hs [key Hp].
  assert (timestamps_invariant s) as Hinv.
  { clear key p Hp. induction Hs as [|c s _ IH _].
    - apply map_Forall_empty.
    - by apply exec_timestamps_invariant. }
  by destruct (map_Forall_lookup_1 _ _ _ _ Hinv Hp).
Qed.

Lemma dischargedAt_implies_admittedAt_witness :
  is_Some (Patient.admittedAt
             (Patient.mk uuid_a "Ann" thirty "F" (Some 7%N) (Some 9%N) false
                [])).
Proof.
  apply (dischargedAt_implies_admittedAt
           (exec (DischargePatient 9%N uuid_a) with_ann_admitted)).
  - apply reachable_exec; [apply with_ann_admitted_reachable | exact I].
  - exists uuid_a. reflexivity.
  - by eexists.
Defined.

(** ** Searching, continued *)

Lemma startsWith_empty (s : string) : startsWith s "" = true.
Proof. reflexivity. Qed.

Lemma includes_empty (s : string) : includes s "" = true.
Proof. destruct s; reflexivity. Qed.

Lemma filter_all {A : Type} (f : A → bool) (l : list A) :
  (∀ x, f x = true) → List.filter f l = l.
Proof.
  intros Hf. induction l as [|x l IH]; simpl; [reflexivity|].
  by rewrite Hf, IH.
Qed.

(** X10. The empty query finds every patient: [searchPatients("")] returns
    what [getPatients] returns.  Only the letters of the query count, not
    their case: two queries that are equal up to case, such as a query and
    its lower-cased form, return the same list. *)
Theorem searchPatients_query_case (q q' : string) (s : State) :
  (searchPatients "" s).1 = (getPatients s).1
  ∧ (searchPatients (toLowerCase q) s).1 = (searchPatients q s).1
  ∧ (same_ignoring_case q q' →
     (searchPatients q s).1 = (searchPatients q' s).1).
Proof.
  split; [|split].
  - run_op. f_equal. apply filter_all. intros p. apply includes_empty.
  - run_op. by rewrite toLowerCase_idempotent.
  - unfold same_ignoring_case. intros Hq. run_op. by rewrite Hq.
Qed.

Lemma searchPatients_query_case_witness :
  (searchPatients "aNN" with_two).1 = (searchPatients "Ann" with_two).1.
Proof.
  apply (searchPatients_query_case "aNN" "Ann" with_two).
  by vm_compute.
Defined.

(** X11. A longer query narrows the search: when the lower-cased [q]
    occurs in the lower-cased [q'], every patient [searchPatients(q')]
    returns is also returned by [searchPatients(q)]. *)
Theorem searchPatients_narrows (q q' : string) (s : State)
    (found found' : list Patient.t) :
  includes (toLowerCase q') (toLowerCase q) = true →
  (searchPatients q s).1 = Ok found →
  (searchPatients q' s).1 = Ok found' →
  ∀ p, p ∈ found' → p ∈ found.
Proof.
  intros Hq [= <-] [= <-] p.
  rewrite !list_elem_of_In, !filter_In.
  intros [Hp Hname]. split; [exact Hp|].
  by apply (includes_trans _ (toLowerCase q')).
Qed.

Lemma searchPatients_narrows_witness :
  Patient.mk uuid_b "Joanna" thirty "F" None None false [record_y]
  ∈ List.filter
      (λ p, includes (toLowerCase (Patient.name p)) (toLowerCase "AN"))
      (map_to_list (patientStorage with_two)).*2.
Proof.
  apply (searchPatients_narrows "AN" "Anna" with_two _
           [Patient.mk uuid_b "Joanna" thirty "F" None None false
              [record_y]]).
  - by vm_compute.
  - reflexivity.
  - by vm_compute.
  - by apply list_elem_of_singleton.
Defined.

(** ** The UUID shape *)

Lemma hex_digits_spec (n : nat) (s rest : string) :
  hex_digits n s = Some rest ↔ ∃ block, s = block +:+ rest ∧ hex_block n block.
Proof.
  unfold hex_block. revert s. induction n as [|n IH]; intros s; simpl.
  - split.
    + intros [= ->]. by exists "".
    + intros (block & -> & Hlen & _). by destruct block.
  - destruct s as [|c s].
    + split; [discriminate|]. intros (block & H & Hlen & _).
      destruct block; [discriminate Hlen | discriminate H].
    + destruct (hex_digit c) eqn:Hc.
      * rewrite IH. split.
        -- intros (block & -> & Hlen & Hhex). exists (String c block).
           simpl. by rewrite Hlen, Hc, Hhex.
        -- intros (block & H & Hlen & Hhex).
           destruct block as [|d block]; [discriminate Hlen|].
           simpl in *. injection H as -> ->. injection Hlen as Hlen.
           rewrite Hc in Hhex. by exists block.
      * split; [discriminate|]. intros (block & H & Hlen & Hhex).
        destruct block as [|d block]; [discriminate Hlen|].
        simpl in *. injection H as -> ->. by rewrite Hc in Hhex.
Qed.

Lemma hyphen_spec (s rest : string) :
  hyphen s = Some rest ↔ s = "-" +:+ rest.
Proof.
  destruct s as [|c s]; simpl; [split; discriminate|].
  destruct (Ascii.eqb_spec c "-") as [->|Hc]; split.
  - by intros [= ->].
  - by intros [= ->].
  - discriminate.
  - intros [= -> _]. contradiction.
Qed.

Lemma followed_by_spec (r : option string) (p : string → option string)
    (rest : string) :
  r >>> p = Some rest ↔ ∃ mid, r = Some mid ∧ p mid = Some rest.
Proof.
  destruct r as [mid|]; simpl; split.
  - intros H. by exists mid.
  - by intros (? & [= <-] & H).
  - discriminate.
  - by intros (? & [=] & _).
Qed.

Lemma hex_group_spec (s rest : string) :
  hex_group s = Some rest
  ↔ ∃ block, s = block +:+ "-" +:+ rest ∧ hex_block 4 block.
Proof.
  unfold hex_group. rewrite followed_by_spec. split.
  - intros (mid & Hdigits & Hhyphen).
    apply hex_digits_spec in Hdigits as (block & -> & Hblock).
    apply hyphen_spec in Hhyphen as ->. by exists block.
  - intros (block & -> & Hblock). exists ("-" +:+ rest). split.
    + apply hex_digits_spec. by exists block.
    + by apply hyphen_spec.
Qed.

Lemma hex_digits_block (n : nat) (block rest : string) :
  hex_block n block → hex_digits n (block +:+ rest) = Some rest.
Proof. intros Hblock. apply hex_digits_spec. by exists block. Qed.

Lemma hex_group_block (block rest : string) :
  hex_block 4 block → hex_group (block +:+ "-" +:+ rest) = Some rest.
Proof. intros Hblock. apply hex_group_spec. by exists block. Qed.

(** The pattern run on five blocks joined by hyphens leaves what follows
    them. *)
Lemma pattern_on_blocks (a b c d e rest : string) :
  hex_block 8 a → hex_block 4 b → hex_block 4 c → hex_block 4 d →
  hex_block 12 e →
  hex_digits 8 (a +:+ "-" +:+ b +:+ "-" +:+ c +:+ "-" +:+ d +:+ "-"
                  +:+ e +:+ rest)
    >>> hyphen >>> hex_group >>> hex_group >>> hex_group >>> hex_digits 12
  = Some rest.
Proof.
  intros Ha Hb Hc Hd He.
  rewrite (hex_digits_block 8 a) by exact Ha. cbn [followed_by].
  change (hyphen ("-" +:+ ?x)) with (Some x). cbn [followed_by].
  rewrite (hex_group_block b) by exact Hb. cbn [followed_by].
  rewrite (hex_group_block c) by exact Hc. cbn [followed_by].
  rewrite (hex_group_block d) by exact Hd. cbn [followed_by].
  by apply hex_digits_block.
Qed.

(** X12. [isValidUUID] accepts exactly the strings made of five blocks of
    8, 4, 4, 4 and 12 hexadecimal digits, of either case, joined by single
    hyphens, with nothing before or after. *)
Theorem isValidUUID_shape (id : string) :
  isValidUUID id = true ↔ uuid_shape id.
Proof.
  unfold isValidUUID, uuid_shape. split.
  - destruct (hex_digits 8 id >>> hyphen >>> hex_group >>> hex_group
                >>> hex_group >>> hex_digits 12) as [[|x rest]|] eqn:Hmatch;
      try discriminate.
    intros _.
    apply followed_by_spec in Hmatch as (r5 & Hmatch & He).
    apply followed_by_spec in Hmatch as (r4 & Hmatch & Hd).
    apply followed_by_spec in Hmatch as (r3 & Hmatch & Hc).
    apply followed_by_spec in Hmatch as (r2 & Hmatch & Hb).
    apply followed_by_spec in Hmatch as (r1 & Ha & Hhyphen).
    apply hex_digits_spec in Ha as (a & -> & Ha).
    apply hyphen_spec in Hhyphen as ->.
    apply hex_group_spec in Hb as (b & -> & Hb).
    apply hex_group_spec in Hc as (c & -> & Hc).
    apply hex_group_spec in Hd as (d & -> & Hd).
    apply hex_digits_spec in He as (e & -> & He).
    exists a, b, c, d, e. by rewrite append_empty_r.
  - intros (a & b & c & d & e & -> & Ha & Hb & Hc & Hd & He).
    pose proof (pattern_on_blocks a b c d e "" Ha Hb Hc Hd He) as Hmatch.
    rewrite append_empty_r in Hmatch. by rewrite Hmatch.
Qed.

Lemma hex_digit_lower (c : ascii) : hex_digit (lower_letter c) = hex_digit c.
Proof. destruct c as [[] [] [] [] [] [] [] []]; reflexivity. Qed.

Lemma is_hyphen_lower (c : ascii) :
  Ascii.eqb (lower_letter c) "-" = Ascii.eqb c "-".
Proof. destruct c as [[] [] [] [] [] [] [] []]; reflexivity. Qed.

Lemma hex_digits_lower (n : nat) (s : string) :
  hex_digits n (lower_letters s) = lower_letters <$> hex_digits n s.
Proof.
  revert s. induction n as [|n IH]; intros [|c s]; simpl; try reflexivity.
  rewrite hex_digit_lower. destruct (hex_digit c); [apply IH | reflexivity].
Qed.

Lemma hyphen_lower (s : string) :
  hyphen (lower_letters s) = lower_letters <$> hyphen s.
Proof.
  destruct s as [|c s]; simpl; [reflexivity|].
  rewrite is_hyphen_lower. by destruct (Ascii.eqb c "-").
Qed.

Lemma followed_by_lower (r : option string) (p : string → option string) :
  (∀ s, p (lower_letters s) = lower_letters <$> p s) →
  (lower_letters <$> r) >>> p = lower_letters <$> (r >>> p).
Proof. intros Hp. destruct r as [mid|]; simpl; [apply Hp | reflexivity]. Qed.

Lemma hex_group_lower (s : string) :
  hex_group (lower_letters s) = lower_letters <$> hex_group s.
Proof.
  unfold hex_group. rewrite hex_digits_lower.
  apply followed_by_lower, hyphen_lower.
Qed.

Lemma isValidUUID_lower_letters (id : string) :
  isValidUUID (lower_letters id) = isValidUUID id.
Proof.
  unfold isValidUUID. rewrite hex_digits_lower.
  rewrite (followed_by_lower _ hyphen hyphen_lower).
  rewrite !(followed_by_lower _ hex_group hex_group_lower).
  rewrite (followed_by_lower _ (hex_digits 12) (hex_digits_lower 12)).
  destruct (hex_digits 8 id >>> hyphen >>> hex_group >>> hex_group
              >>> hex_group >>> hex_digits 12) as [[|c rest]|]; reflexivity.
Qed.

(** X13. [isValidUUID] does not look at the case of the letters: a string
    and its lower-cased form are accepted or turned down alike. *)
Theorem isValidUUID_ignores_case (id : string) :
  isValidUUID (toLowerCase id) = isValidUUID id.
Proof.
  destruct (uuid_characters id) eqn:Hid.
  - rewrite toLowerCase_ascii by (by apply uuid_characters_ascii).
    apply isValidUUID_lower_letters.
  - pose proof (uuid_characters_lower id) as Hlow. rewrite Hid in Hlow.
    destruct (isValidUUID id) eqn:Hvalid.
    { apply isValidUUID_characters in Hvalid. congruence. }
    destruct (isValidUUID (toLowerCase id)) eqn:Hlowered; [|reflexivity].
    apply isValidUUID_characters in Hlowered. congruence.
Qed.

(** ** Admission, continued *)

(** X14. A stay changes nothing but the admission fields: after
    [admitPatient] at [t1] and [dischargePatient] at [t2] the stored patient
    is the earlier one with [admittedAt = t1], [dischargedAt = t2] and
    [isAdmitted = false].  A later [admitPatient] at [t3] overwrites
    [admittedAt] and keeps the discharge time of the earlier stay. *)
Theorem stay_then_readmission (id : string) (s : State) (p : Patient.t)
    (t1 t2 t3 : nat64) :
  id ≠ "" → patientStorage s !! id = Some p → Patient.isAdmitted p = false →
  let after_stay := exec (DischargePatient t2 id) (exec (AdmitPatient t1 id) s) in
  patientStorage after_stay !! id
  = Some (Patient.mk (Patient.id p) (Patient.name p) (Patient.age p)
            (Patient.gender p) (Some t1) (Some t2) false
            (Patient.medicalRecords p))
  ∧ patientStorage (exec (AdmitPatient t3 id) after_stay) !! id
    = Some (Patient.mk (Patient.id p) (Patient.name p) (Patient.age p)
              (Patient.gender p) (Some t3) (Some t2) true
              (Patient.medicalRecords p)).
Proof.
  intros Hid Hp Hadm. simpl.
  rewrite (admitPatient_stored t1 id s p Hid Hp), Hadm. simpl.
  erewrite dischargePatient_stored; [|exact Hid | apply lookup_insert_eq].
  simpl. split; [apply lookup_insert_eq|].
  erewrite admitPatient_stored; [|exact Hid | apply lookup_insert_eq].
  simpl. apply lookup_insert_eq.
Qed.

Lemma stay_then_readmission_witness :
  patientStorage
    (exec (AdmitPatient 3%N uuid_a)
       (exec (DischargePatient 2%N uuid_a)
          (exec (AdmitPatient 1%N uuid_a) with_ann))) !! uuid_a
  = Some (Patient.mk uuid_a "Ann" thirty "F" (Some 3%N) (Some 2%N) true []).
Proof.
  apply (stay_then_readmission uuid_a with_ann ann_created 1%N 2%N 3%N).
  - discriminate.
  - reflexivity.
  - reflexivity.
Defined.

(** ** Creating and updating, continued *)

(** X15. Updating a patient right after creating it gives the store, and
    the answer, that creating it from the second payload gives. *)
Theorem updatePatient_after_addPatient (uuid : string)
    (first second : PatientPayload.t) (s : State) :
  uuid ≠ "" → complete first = true → complete second = true →
  patientStorage
    (exec (UpdatePatient uuid second) (exec (AddPatient uuid first) s))
  = patientStorage (exec (AddPatient uuid second) s)
  ∧ (updatePatient uuid second (exec (AddPatient uuid first) s)).1
    = (addPatient uuid second s).1.
Proof.
  unfold complete. intros Huuid Hfirst Hsecond.
  apply negb_true_iff in Hfirst, Hsecond.
  apply falsy_string_false in Huuid.
  simpl. unfold updatePatient, addPatient.
  rewrite Huuid, Hfirst, Hsecond. run_op.
  rewrite lookup_insert_eq. simpl. by rewrite insert_insert_eq.
Qed.

Lemma updatePatient_after_addPatient_witness :
  patientStorage
    (exec (UpdatePatient uuid_a joanna) (exec (AddPatient uuid_a ann) init))
  = patientStorage (exec (AddPatient uuid_a joanna) init).
Proof.
  apply (updatePatient_after_addPatient uuid_a ann joanna init).
  - discriminate.
  - reflexivity.
  - reflexivity.
Defined.

(** ** Medical records, continued *)

(** X16. [getMedicalRecords(id)] succeeds exactly when [getPatient(id)]
    does, with the records of the patient [getPatient] returns, and both
    leave the same state. *)
Theorem getMedicalRecords_of_getPatient (id : string) (s : State) :
  match (getPatient id s).1 with
  | Ok p => (getMedicalRecords id s).1 = Ok (Patient.medicalRecords p)
  | Err _ => is_Err (getMedicalRecords id s).1 = true
  end
  ∧ (getMedicalRecords id s).2 = (getPatient id s).2.
Proof.
  unfold getPatient, getMedicalRecords.
  destruct (falsy_string id); [by split|]. run_op.
  by destruct (patientStorage s !! id).
Qed.

Lemma with_medicalRecords_twice (p : Patient.t)
    (l l' : list MedicalRecord.t) :
  with_medicalRecords (with_medicalRecords p l) l' = with_medicalRecords p l'.
Proof. reflexivity. Qed.

Lemma with_medicalRecords_same (p : Patient.t) :
  with_medicalRecords p (Patient.medicalRecords p) = p.
Proof. by destruct p. Qed.

(** X17. Adding a record whose id is new to the patient and then deleting
    by that id brings the store back: the record just added is the one
    removed, and the patient is as it was. *)
Theorem deleteMedicalRecord_after_addMedicalRecord (pid : string)
    (r : MedicalRecord.t) (s : State) (p : Patient.t) :
  pid ≠ "" → MedicalRecord.id r ≠ "" →
  patientStorage s !! pid = Some p →
  (∀ r', r' ∈ Patient.medicalRecords p →
         MedicalRecord.id r' ≠ MedicalRecord.id r) →
  (deleteMedicalRecord pid (MedicalRecord.id r)
     (exec (AddMedicalRecord pid r) s)).1 = Ok p
  ∧ patientStorage
      (exec (DeleteMedicalRecord pid (MedicalRecord.id r))
         (exec (AddMedicalRecord pid r) s))
    = patientStorage s.
Proof.
  intros Hpid Hrid Hp Hnew. simpl.
  rewrite (addMedicalRecord_stored pid r s p Hpid Hp). simpl.
  set (l := Patient.medicalRecords p) in *.
  assert (first_match (MedicalRecord.id r) (l ++ [r]) (length l)) as Hfirst.
  { split.
    - exists r. split; [apply list_lookup_middle|]; reflexivity.
    - intros j r' Hj Hr'. rewrite lookup_app_l in Hr' by exact Hj.
      apply Hnew. apply list_elem_of_lookup. by exists j. }
  erewrite deleteMedicalRecord_found;
    [ | exact Hpid | exact Hrid | apply lookup_insert_eq | exact Hfirst ].
  simpl. rewrite with_medicalRecords_twice.
  rewrite take_app_length.
  rewrite drop_ge by (rewrite length_app; simpl; lia).
  rewrite app_nil_r. subst l. rewrite with_medicalRecords_same.
  split; [reflexivity|]. rewrite insert_insert_eq. by apply insert_id.
Qed.

Lemma deleteMedicalRecord_after_addMedicalRecord_witness :
  patientStorage
    (exec (DeleteMedicalRecord uuid_a "z")
       (exec (AddMedicalRecord uuid_a record_z) with_records))
  = patientStorage with_records.
Proof.
  apply (deleteMedicalRecord_after_addMedicalRecord uuid_a record_z
           with_records
           (with_medicalRecords ann_created [record_x; record_y; record_x'])).
  - discriminate.
  - discriminate.
  - reflexivity.
  - intros r' Hr'. simpl in Hr'.
    repeat (apply elem_of_cons in Hr' as [->|Hr']; [discriminate|]).
    by apply elem_of_nil in Hr'.
Defined.




(** X19. [updateMedicalRecord] with a record that carries the id it is
    addressed by can be repeated: the second call succeeds with the same
    patient and leaves the store as the first one left it. *)
Theorem updateMedicalRecord_twice (pid rid : string)
    (newr : MedicalRecord.t) (s : State) (p : Patient.t) (i : nat) :
  pid ≠ "" → rid ≠ "" → patientStorage s !! pid = Some p →
  first_match rid (Patient.medicalRecords p) i →
  MedicalRecord.id newr = rid →
  (updateMedicalRecord pid rid newr
     (exec (UpdateMedicalRecord pid rid newr) s)).1
  = (updateMedicalRecord pid rid newr s).1
  ∧ patientStorage
      (exec (UpdateMedicalRecord pid rid newr)
         (exec (UpdateMedicalRecord pid rid newr) s))
    = patientStorage (exec (UpdateMedicalRecord pid rid newr) s).
Proof.
  intros Hpid Hrid Hp Hfirst Hnew. simpl.
  rewrite (updateMedicalRecord_found pid rid newr s p i) by done. simpl.
  pose proof Hfirst as [(x & Hx & _) Hbefore].
  apply lookup_lt_Some in Hx.
  assert (first_match rid (<[i := newr]> (Patient.medicalRecords p)) i)
    as Hagain.
  { split.
    - exists newr. split; [by apply list_lookup_insert_eq | exact Hnew].
    - intros j r Hj Hr. rewrite list_lookup_insert_ne in Hr by lia.
      by apply (Hbefore j). }
  erewrite updateMedicalRecord_found;
    [ | exact Hpid | exact Hrid | apply lookup_insert_eq | exact Hagain ].
  simpl. rewrite with_medicalRecords_twice, list_insert_insert_eq.
  split; [reflexivity|]. by rewrite insert_insert_eq.
Qed.

Lemma updateMedicalRecord_twice_witness :
  patientStorage
    (exec (UpdateMedicalRecord uuid_a "x" record_x')
       (exec (UpdateMedicalRecord uuid_a "x" record_x') with_records))
  = patientStorage
      (exec (UpdateMedicalRecord uuid_a "x" record_x') with_records).
Proof.
  apply (updateMedicalRecord_twice uuid_a "x" record_x' with_records
           (with_medicalRecords ann_created [record_x; record_y; record_x'])
           0).
  - discriminate.
  - discriminate.
  - reflexivity.
  - split; [by exists record_x|]. intros j r Hj. lia.
  - reflexivity.
Defined.

(** X20. A record added under an id that the patient already uses cannot
    be addressed by that id: after [addMedicalRecord], both
    [updateMedicalRecord] and [deleteMedicalRecord] with that id still act
    on the earlier record, and the added record stays at the end. *)
Theorem added_duplicate_is_shadowed (pid : string) (r newr : MedicalRecord.t)
    (s : State) (p : Patient.t) (i : nat) :
  pid ≠ "" → MedicalRecord.id r ≠ "" →
  patientStorage s !! pid = Some p →
  first_match (MedicalRecord.id r) (Patient.medicalRecords p) i →
  (updateMedicalRecord pid (MedicalRecord.id r) newr
     (exec (AddMedicalRecord pid r) s)).1
  = Ok (with_medicalRecords p
          (<[i := newr]> (Patient.medicalRecords p) ++ [r])%list)
  ∧ (deleteMedicalRecord pid (MedicalRecord.id r)
       (exec (AddMedicalRecord pid r) s)).1
    = Ok (with_medicalRecords p
            (take i (Patient.medicalRecords p)
               ++ drop (S i) (Patient.medicalRecords p) ++ [r])%list).
Proof.
  intros Hpid Hrid Hp Hfirst. simpl.
  rewrite (addMedicalRecord_stored pid r s p Hpid Hp). simpl.
  set (l := Patient.medicalRecords p) in *.
  pose proof Hfirst as [(x & Hx & Hid) Hbefore].
  pose proof (lookup_lt_Some _ _ _ Hx) as Hi.
  assert (first_match (MedicalRecord.id r) (l ++ [r]) i) as Hstill.
  { split.
    - exists x. by rewrite lookup_app_l.
    - intros j r' Hj Hr'. rewrite lookup_app_l in Hr' by lia.
      by apply (Hbefore j). }
  split.
  - erewrite updateMedicalRecord_found;
      [ | exact Hpid | exact Hrid | apply lookup_insert_eq | exact Hstill ].
    simpl. rewrite with_medicalRecords_twice.
    by rewrite insert_app_l.
  - erewrite deleteMedicalRecord_found;
      [ | exact Hpid | exact Hrid | apply lookup_insert_eq | exact Hstill ].
    simpl. rewrite with_medicalRecords_twice.
    rewrite take_app_le by lia.
    rewrite drop_app_le by lia. reflexivity.
Qed.

Lemma added_duplicate_is_shadowed_witness :
  (deleteMedicalRecord uuid_a "x"
     (exec (AddMedicalRecord uuid_a record_x')
        (exec (AddMedicalRecord uuid_a record_x) with_ann))).1
  = Ok (with_medicalRecords ann_created [record_x']).
Proof.
  apply (added_duplicate_is_shadowed uuid_a record_x' record_z
           (exec (AddMedicalRecord uuid_a record_x) with_ann)
           (with_medicalRecords ann_created [record_x]) 0).
  - discriminate.
  - discriminate.
  - reflexivity.
  - split; [by exists record_x|]. intros j r Hj. lia.
Defined.

(** ** Searching and fetching *)

(** X21. In a reachable store every patient that [searchPatients] returns
    can be fetched by its id: [getPatient(p.id)] returns that patient. *)
Theorem getPatient_of_found (q : string) (s : State)
    (found : list Patient.t) (p : Patient.t) :
  reachable s → (searchPatients q s).1 = Ok found → p ∈ found →
  (getPatient (Patient.id p) s).1 = Ok p.
Proof.
  intros Hs [= <-] Hp.
  apply list_elem_of_In, filter_In in Hp as [Hp _].
  apply list_elem_of_In, values_stored in Hp as [key Hkey].
  destruct (reachable_stored_key s key p Hs Hkey) as [-> Hne].
  by rewrite getPatient_nonempty, Hkey.
Qed.

Lemma getPatient_of_found_witness :
  (getPatient uuid_a with_records).1
  = Ok (with_medicalRecords ann_created [record_x; record_y; record_x']).
Proof.
  apply (getPatient_of_found "an" with_records
           [with_medicalRecords ann_created [record_x; record_y; record_x']]
           (with_medicalRecords ann_created [record_x; record_y; record_x'])).
  - exact with_records_reachable.
  - reflexivity.
  - by apply list_elem_of_singleton.
Defined.
